(** * JSAF Auditor: the result-completeness auditing engine of [app.py]

    A shallow embedding of the engine of the auditor: the non-zero-ratio
    helpers ([nz_ratio_1d], [nz_ratio_mesh]), the classifier loops of
    [render_results_1d] and [render_mesh_results] (index, per-owner summary,
    session counts) and the checks of [render_validation] (dangling
    references, orphans, empty results, empty collections).

    Python dictionaries used as maps are [gmap]s, sets are [gset]s, the
    [for] loops that update accumulators are left folds, and the lists that
    grow by [append] are lists extended at their end. *)

From Stdlib Require Import QArith Qcanon Qcabs.
From stdpp Require Import gmap strings list fin_maps pretty numbers.

Close Scope Qc_scope.
Close Scope Q_scope.
Open Scope string_scope.
Open Scope list_scope.

(* ===================================================================== *)
(** ** Python primitives used by the engine *)
(* ===================================================================== *)

Module Py.

(** A finite JSON number.  Both Python [int] and [float] values are
    read as the rational they denote, in canonical form, so that Python's
    [==] on numbers is equality.  The constant [1e-6] is the rational
    [1/10^6]: the double nearest to it lies just below it and no double
    lies in between, and an [int] is compared exactly, so for every value
    [v] Python can hold, [abs(v) > 1e-6] agrees with the comparison of
    the rationals. *)
Definition number : Type := Qc.

Definition of_nat (n : nat) : number := Q2Qc (inject_Z (Z.of_nat n)).

(** [1e-6] *)
Definition tol : number := Q2Qc (1 # 1000000).

(** [max(a, b)]: the first argument unless the second is strictly larger. *)
Definition max2 (a b : number) : number :=
  if decide (a < b)%Qc then b else a.

(** [max(vals)] on a list known to be non-empty, given as head and tail. *)
Definition max_seq (v : number) (vs : list number) : number :=
  foldl max2 v vs.

(** [any(p(v) for v in vals)] *)
Definition any {A} (p : A → bool) (vals : list A) : bool := existsb p vals.

(** [sum(1 for x in xs if p(x))] *)
Definition count {A} (P : A → Prop) `{∀ x, Decision (P x)} (xs : list A) : nat :=
  length (filter P xs).

(** How an f-string renders [d.get(k)]: the string itself, or [None]. *)
Definition fmt (o : option string) : string := default "None" o.

(** Truth value of a string: false exactly for the empty one. *)
Definition truthy (s : string) : bool := negb (String.eqb s "").

(** [sep.join(xs)] *)
Definition join (sep : string) (xs : list string) : string := String.concat sep xs.

(** [xs.append(x)] *)
Definition append {A} (xs : list A) (x : A) : list A := (xs ++ [x])%list.

(** [sub in s] on strings. *)
Fixpoint contains (sub s : string) : bool :=
  String.prefix sub s ||
  match s with
  | EmptyString => false
  | String _ s' => contains sub s'
  end.

End Py.

(* ===================================================================== *)
(** ** The document *)
(* ===================================================================== *)

(** A JSON object of a collection, with the members the engine reads.
    Every member is optional: [get_Id m] is [m.get("Id")], [None] when
    the key is absent.  Identifiers and names are strings, [Nodes] and
    [Materials] lists of identifiers, and [seqs] holds the numeric
    sequences of a result record by component name. *)
Record entity : Type := Entity {
  get_Id : option string;
  get_Name : option string;
  get_CrossSection : option string;
  get_Node : option string;
  get_Surface : option string;
  get_Member : option string;
  get_Load : option string;
  get_Nodes : option (list string);
  get_Materials : option (list string);
  seqs : gmap string (list Py.number)
}.

(** [r.get(c, [])] *)
Definition get_seq (r : entity) (c : string) : list Py.number :=
  default [] (seqs r !! c).

(** A top-level member of the document: a list of objects, or anything
    else (a string such as the model name, a number, an object). *)
Inductive value : Type :=
  | VList (items : list entity)
  | VOther.

(** The loaded document: a dictionary in the key order of the file. *)
Definition document : Type := list (string * value).

Fixpoint lookup_key (data : document) (k : string) : option value :=
  match data with
  | [] => None
  | (k', v) :: data' => if decide (k' = k) then Some v else lookup_key data' k
  end.

(** [data.get(k, [])] followed by an iteration over its objects.  The
    engine only does this for collection keys.  A value that is not a list
    under such a key is not a JSAF document and is not iterated by the
    model, which stops with [None]. *)
Definition data_get (data : document) (k : string) : option (list entity) :=
  match lookup_key data k with
  | None => Some []
  | Some (VList items) => Some items
  | Some VOther => None
  end.

(** The collections [render_validation] reads. *)
Definition COLLECTIONS : list string :=
  ["Materials"; "CrossSections"; "PointConnections"; "LoadCases";
   "SurfaceMembers"; "CurveMembers"; "PointSupports";
   "SurfaceMemberOpenings"; "Results1D"; "MeshResults"].

(** A well-formed document holds a list under every collection key that is
    present. *)
Definition well_formed (data : document) : Prop :=
  Forall (λ k, is_Some (data_get data k)) COLLECTIONS.

(* ===================================================================== *)
(** ** Non-zero ratio *)
(* ===================================================================== *)

Definition COMPS_1D : list string := ["aN"; "aVy"; "aVz"; "aMx"; "aMy"; "aMz"].
Definition COMPS_MESH : list string :=
  ["amx"; "amy"; "amxy"; "avx"; "avy"; "anx"; "any"; "anxy"].

(** [any(abs(v) > 1e-6 for v in r.get(c, []))] *)
Definition comp_nonzero (r : entity) (c : string) : bool :=
  Py.any (λ v, bool_decide (Py.tol < Qcabs v)%Qc) (get_seq r c).

(** The body shared by [nz_ratio_1d] and [nz_ratio_mesh], which differ in
    the component list only. *)
Definition nz_ratio (COMPS : list string) (r : entity) : Py.number :=
  let total := length COMPS in
  let nz := Py.count (λ c, comp_nonzero r c = true) COMPS in
  (Py.of_nat nz / Py.of_nat total)%Qc.

Definition nz_ratio_1d (r : entity) : Py.number := nz_ratio COMPS_1D r.
Definition nz_ratio_mesh (r : entity) : Py.number := nz_ratio COMPS_MESH r.

(** The three labels of the detail view ([if ratio == 1.0 ... elif ratio > 0
    ... else ...]). *)
Inductive completeness : Type := Complete | Partial | Empty.

Definition classify (ratio : Py.number) : completeness :=
  if decide (ratio = 1%Qc) then Complete
  else if decide (0 < ratio)%Qc then Partial
  else Empty.

(* ===================================================================== *)
(** ** Result completeness classifier *)
(* ===================================================================== *)

(** The value kept per owner:
    [{"nonzero": _, "zero": _, "max_vals": {c: _ for c in COMPS}}]. *)
Record info : Type := Info {
  nonzero : nat;
  zero : nat;
  max_vals : gmap string Py.number
}.

(** [{"nonzero": 0, "zero": 0, "max_vals": {c: 0 for c in COMPS}}] *)
Definition fresh_info (COMPS : list string) : info :=
  Info 0 0 (foldl (λ mv c, <[c := 0%Qc]> mv) ∅ COMPS).

(** [mv[c]].  The engine reads [max_vals] at component names only and
    every [max_vals] is created with all of them as keys, so the lookup
    never misses. *)
Definition getitem (mv : gmap string Py.number) (c : string) : Py.number :=
  default 0%Qc (mv !! c).

Definition add_nonzero (i : info) : info := Info (nonzero i + 1) (zero i) (max_vals i).
Definition add_zero (i : info) : info := Info (nonzero i) (zero i + 1) (max_vals i).

(** [i["max_vals"][c] = max(i["max_vals"][c], m)] *)
Definition raise_max (c : string) (m : Py.number) (i : info) : info :=
  Info (nonzero i) (zero i) (<[c := Py.max2 (getitem (max_vals i) c) m]> (max_vals i)).

(** The inner loop [for c in COMPS: vals = [abs(v) ...]; if vals: ...] on
    the summary, for the record [r] of owner [bid]. *)
Definition update_max (bid : string) (r : entity)
    (summary : gmap string info) (c : string) : gmap string info :=
  match Qcabs <$> get_seq r c with
  | [] => summary
  | v :: vs => alter (raise_max c (Py.max_seq v vs)) bid summary
  end.

(** One iteration of [for r in results] on the pair
    [(result_index, bar_summary)] ([panel_summary] for meshes). *)
Definition step (COMPS : list string)
    (st : gmap (string * string) entity * gmap string info) (r : entity)
    : gmap (string * string) entity * gmap string info :=
  let '(result_index, summary) := st in
  let bid := default "" (get_Member r) in
  let lid := default "" (get_Load r) in
  let result_index := <[(bid, lid) := r]> result_index in
  let ratio := nz_ratio COMPS r in
  let summary :=
    if decide (summary !! bid = None)
    then <[bid := fresh_info COMPS]> summary else summary in
  let summary :=
    if decide (0 < ratio)%Qc
    then alter add_nonzero bid summary
    else alter add_zero bid summary in
  let summary := foldl (update_max bid r) summary COMPS in
  (result_index, summary).

(** What the classifier hands to the presentation code. *)
Record classification : Type := Classification {
  result_index : gmap (string * string) entity;
  owner_summary : gmap string info;
  n_total : nat;
  n_full : nat;
  n_partial : nat;
  n_empty : nat
}.

(** The classifier of [render_results_1d] and [render_mesh_results]: the
    loop that fills the index and the summary, then the four counts. *)
Definition classify_results (COMPS : list string) (results : list entity)
    : classification :=
  let '(result_index, summary) := foldl (step COMPS) (∅, ∅) results in
  let total := length results in
  let full := Py.count (λ r, nz_ratio COMPS r = 1%Qc) results in
  let partial :=
    Py.count (λ r, (0 < nz_ratio COMPS r)%Qc ∧ (nz_ratio COMPS r < 1)%Qc) results in
  let empty := Py.count (λ r, nz_ratio COMPS r = 0%Qc) results in
  Classification result_index summary total full partial empty.

(** Either the early return on an absent or empty collection, with the
    text shown, or the classification. *)
Inductive rendered : Type :=
  | NoResults (msg : string)
  | Results (c : classification).

Definition render_results (key msg : string) (COMPS : list string)
    (data : document) : option rendered :=
  results ← data_get data key;
  match results with
  | [] => Some (NoResults msg)
  | _ => Some (Results (classify_results COMPS results))
  end.

Definition render_results_1d : document → option rendered :=
  render_results "Results1D" "No hay resultados 1D." COMPS_1D.

Definition render_mesh_results : document → option rendered :=
  render_results "MeshResults" "No hay resultados de malla." COMPS_MESH.

(* ===================================================================== *)
(** ** Validation *)
(* ===================================================================== *)

(** [set(x.get("Id") for x in items)]: an object without [Id] puts [None]
    in the set. *)
Definition id_set (items : list entity) : gset (option string) :=
  list_to_set (get_Id <$> items).

(** [set(r.get("Member") for r in items)] *)
Definition member_set (items : list entity) : gset (option string) :=
  list_to_set (get_Member <$> items).

Definition msg_section_material (cs : entity) : string :=
  "Sección '" +:+ Py.fmt (get_Name cs) +:+ "' → material inexistente".
Definition msg_bar_section (b : entity) : string :=
  "Barra '" +:+ Py.fmt (get_Name b) +:+ "' → sección inexistente".
Definition msg_bar_node (b : entity) (nid : string) : string :=
  "Barra '" +:+ Py.fmt (get_Name b) +:+ "' → nodo " +:+ nid +:+ " inexistente".
Definition msg_surface_node (s : entity) (nid : string) : string :=
  "Superficie '" +:+ Py.fmt (get_Name s) +:+ "' → nodo " +:+ nid +:+ " inexistente".
Definition msg_support_node (sup : entity) : string :=
  "Apoyo '" +:+ Py.fmt (get_Name sup) +:+ "' → nodo inexistente".
Definition msg_opening_surface (o : entity) : string :=
  "Abertura '" +:+ Py.fmt (get_Name o) +:+ "' → superficie inexistente".

(** [if x not in ids: issues.append(msg)] *)
Definition append_unless_in (ids : gset (option string)) (x : string)
    (msg : string) (issues : list string) : list string :=
  if decide (Some x ∉ ids) then Py.append issues msg else issues.

(** Body of [for cs in data.get("CrossSections", [])]. *)
Definition check_section (mat_ids : gset (option string))
    (issues : list string) (cs : entity) : list string :=
  foldl (λ issues mid, append_unless_in mat_ids mid (msg_section_material cs) issues)
        issues (default [] (get_Materials cs)).

(** Body of [for b in data.get("CurveMembers", [])].  When the first test
    passes the key is present, and [b["CrossSection"]] is the string just
    tested. *)
Definition check_bar (cs_ids node_ids : gset (option string))
    (issues : list string) (b : entity) : list string :=
  let cs := default "" (get_CrossSection b) in
  let issues :=
    if Py.truthy cs && bool_decide (Some cs ∉ cs_ids)
    then Py.append issues (msg_bar_section b) else issues in
  foldl (λ issues nid, append_unless_in node_ids nid (msg_bar_node b nid) issues)
        issues (default [] (get_Nodes b)).

(** Body of [for s in data.get("SurfaceMembers", [])]. *)
Definition check_surface (node_ids : gset (option string))
    (issues : list string) (s : entity) : list string :=
  foldl (λ issues nid, append_unless_in node_ids nid (msg_surface_node s nid) issues)
        issues (default [] (get_Nodes s)).

(** Body of [for sup in data.get("PointSupports", [])]. *)
Definition check_support (node_ids : gset (option string))
    (issues : list string) (sup : entity) : list string :=
  let n := default "" (get_Node sup) in
  if Py.truthy n && bool_decide (Some n ∉ node_ids)
  then Py.append issues (msg_support_node sup) else issues.

(** Body of [for o in data.get("SurfaceMemberOpenings", [])]. *)
Definition check_opening (surf_ids : gset (option string))
    (issues : list string) (o : entity) : list string :=
  append_unless_in surf_ids (default "" (get_Surface o)) (msg_opening_surface o) issues.

(** [[k for k, v in data.items() if isinstance(v, list) and len(v) == 0]] *)
Definition empty_keys (data : document) : list string :=
  omap (λ kv, match kv.2 with VList [] => Some kv.1 | _ => None end) data.

(** [if cond: warns.append(msg)] *)
Definition append_if (cond : bool) (msg : string) (warns : list string) : list string :=
  if cond then Py.append warns msg else warns.

(** [render_validation], up to the two lists it then displays:
    [(issues, warns)]. *)
Definition render_validation (data : document) : option (list string * list string) :=
  Materials ← data_get data "Materials";
  CrossSections ← data_get data "CrossSections";
  PointConnections ← data_get data "PointConnections";
  LoadCases ← data_get data "LoadCases";
  SurfaceMembers ← data_get data "SurfaceMembers";
  CurveMembers ← data_get data "CurveMembers";
  PointSupports ← data_get data "PointSupports";
  SurfaceMemberOpenings ← data_get data "SurfaceMemberOpenings";
  Results1D ← data_get data "Results1D";
  MeshResults ← data_get data "MeshResults";
  let issues : list string := [] in
  let warns : list string := [] in
  let mat_ids := id_set Materials in
  let cs_ids := id_set CrossSections in
  let node_ids := id_set PointConnections in
  let lc_ids := id_set LoadCases in
  let surf_ids := id_set SurfaceMembers in
  let bar_ids := id_set CurveMembers in
  let issues := foldl (check_section mat_ids) issues CrossSections in
  let issues := foldl (check_bar cs_ids node_ids) issues CurveMembers in
  let issues := foldl (check_surface node_ids) issues SurfaceMembers in
  let issues := foldl (check_support node_ids) issues PointSupports in
  let issues := foldl (check_opening surf_ids) issues SurfaceMemberOpenings in
  let r1d_o := member_set Results1D ∖ bar_ids in
  let warns :=
    append_if (bool_decide (r1d_o ≠ ∅))
      ("Results1D: " +:+ pretty (size r1d_o) +:+ " barras huérfanas") warns in
  let mr_o := member_set MeshResults ∖ surf_ids in
  let warns :=
    append_if (bool_decide (mr_o ≠ ∅))
      ("MeshResults: " +:+ pretty (size mr_o) +:+ " paneles huérfanos") warns in
  let z1 := Py.count (λ r, nz_ratio_1d r = 0%Qc) Results1D in
  let zm := Py.count (λ r, nz_ratio_mesh r = 0%Qc) MeshResults in
  let warns :=
    append_if (bool_decide (z1 ≠ 0))
      ("Results1D: " +:+ pretty z1 +:+ "/" +:+ pretty (length Results1D) +:+ " vacíos")
      warns in
  let warns :=
    append_if (bool_decide (zm ≠ 0))
      ("MeshResults: " +:+ pretty zm +:+ "/" +:+ pretty (length MeshResults) +:+ " vacíos")
      warns in
  let empty := empty_keys data in
  let warns :=
    append_if (bool_decide (empty ≠ []))
      ("Entidades vacías: " +:+ Py.join ", " empty) warns in
  Some (issues, warns).

(** [it.get("Name", it.get("Id", "?"))]: the label [id_name_map] gives
    an object, its name or else its id. *)
Definition display_name (it : entity) : string :=
  default (default "?" (get_Id it)) (get_Name it).

(** [id_name_map(items)]; [items or []] is [items] itself for a list. *)
Definition id_name_map (items : list entity) : gmap string string :=
  foldl (λ m it, <[default "" (get_Id it) := display_name it]> m) ∅ items.

(* ===================================================================== *)
(** ** The contracts of the specification, to compare the code with *)
(* ===================================================================== *)

(** The collection under a key, empty when the key is absent. *)
Definition coll (data : document) (k : string) : list entity :=
  default [] (data_get data k).

(** The six relations the Reference Validator checks. *)
Inductive reference : Type :=
  | SectionMaterial | BarSection | BarNode | SurfaceNode | SupportNode
  | OpeningSurface.

(** An unresolved reference: the relation, the object that holds the
    reference, and the id that resolves to nothing. *)
Record unresolved : Type := Unresolved {
  u_kind : reference;
  u_source : entity;
  u_id : string
}.

(** When a reference is dangling.  The cross-section of a bar and the
    node of a support are references only when non-empty; the surface of an
    opening is looked up as it is, the empty string standing for an absent
    member. *)
Definition is_dangling (data : document) (u : unresolved) : Prop :=
  let src := u_source u in
  let x := u_id u in
  match u_kind u with
  | SectionMaterial =>
      src ∈ coll data "CrossSections" ∧ x ∈ default [] (get_Materials src) ∧
      Some x ∉ id_set (coll data "Materials")
  | BarSection =>
      src ∈ coll data "CurveMembers" ∧ get_CrossSection src = Some x ∧ x ≠ "" ∧
      Some x ∉ id_set (coll data "CrossSections")
  | BarNode =>
      src ∈ coll data "CurveMembers" ∧ x ∈ default [] (get_Nodes src) ∧
      Some x ∉ id_set (coll data "PointConnections")
  | SurfaceNode =>
      src ∈ coll data "SurfaceMembers" ∧ x ∈ default [] (get_Nodes src) ∧
      Some x ∉ id_set (coll data "PointConnections")
  | SupportNode =>
      src ∈ coll data "PointSupports" ∧ get_Node src = Some x ∧ x ≠ "" ∧
      Some x ∉ id_set (coll data "PointConnections")
  | OpeningSurface =>
      src ∈ coll data "SurfaceMemberOpenings" ∧ default "" (get_Surface src) = x ∧
      Some x ∉ id_set (coll data "SurfaceMembers")
  end.

Definition pick (ids : gset (option string)) (kind : reference)
    (src : entity) (x : string) : list unresolved :=
  if decide (Some x ∉ ids) then [Unresolved kind src x] else [].

Definition pick_nonempty (ids : gset (option string)) (kind : reference)
    (src : entity) (x : string) : list unresolved :=
  if decide (x = "") then [] else pick ids kind src x.

(** The unresolved references of a document, in the order of the
    Reference Validator contract: document order of the outer object, then
    the order of its reference list. *)
Definition unresolved_refs (data : document) : list unresolved :=
  let mat_ids := id_set (coll data "Materials") in
  let cs_ids := id_set (coll data "CrossSections") in
  let node_ids := id_set (coll data "PointConnections") in
  let surf_ids := id_set (coll data "SurfaceMembers") in
  (cs ← coll data "CrossSections";
     mid ← default [] (get_Materials cs); pick mat_ids SectionMaterial cs mid) ++
  (b ← coll data "CurveMembers";
     pick_nonempty cs_ids BarSection b (default "" (get_CrossSection b)) ++
     (nid ← default [] (get_Nodes b); pick node_ids BarNode b nid)) ++
  (s ← coll data "SurfaceMembers";
     nid ← default [] (get_Nodes s); pick node_ids SurfaceNode s nid) ++
  (sup ← coll data "PointSupports";
     pick_nonempty node_ids SupportNode sup (default "" (get_Node sup))) ++
  (o ← coll data "SurfaceMemberOpenings";
     pick surf_ids OpeningSurface o (default "" (get_Surface o))).

(** The text the validator writes for an unresolved reference. *)
Definition issue_of (u : unresolved) : string :=
  match u_kind u with
  | SectionMaterial => msg_section_material (u_source u)
  | BarSection => msg_bar_section (u_source u)
  | BarNode => msg_bar_node (u_source u) (u_id u)
  | SurfaceNode => msg_surface_node (u_source u) (u_id u)
  | SupportNode => msg_support_node (u_source u)
  | OpeningSurface => msg_opening_surface (u_source u)
  end.

(** A text carries a string when the string occurs in it. *)
Definition carries (msg s : string) : Prop :=
  ∃ pre post, msg = pre +:+ s +:+ post.

(** The owner id the classifier files a record under. *)
Definition owner (r : entity) : string := default "" (get_Member r).

(** The (owner id, load id) pair the index files a record under. *)
Definition key_of (r : entity) : string * string :=
  (default "" (get_Member r), default "" (get_Load r)).

(** The records of one owner, in input order. *)
Definition records_of (bid : string) (results : list entity) : list entity :=
  filter (λ r, owner r = bid) results.

(** The absolute values of every element of a component's sequence across
    the given records. *)
Definition abs_values (c : string) (rs : list entity) : list Py.number :=
  r ← rs; Qcabs <$> get_seq r c.

(** [m] is the maximum of [vals], or 0 when there are none. *)
Definition is_max_or_zero (vals : list Py.number) (m : Py.number) : Prop :=
  (vals = [] ∧ m = 0%Qc) ∨ (m ∈ vals ∧ ∀ v, v ∈ vals → (v <= m)%Qc).

(** The orphan detector contract: the owner ids of the results that no
    geometry object has as its id. *)
Definition is_orphan (results geometry : list entity) (x : option string) : Prop :=
  (∃ r, r ∈ results ∧ get_Member r = x) ∧ ∀ g, g ∈ geometry → get_Id g ≠ x.

(* ===================================================================== *)
(** ** Scenario data *)
(* ===================================================================== *)

Module Scenario.

Definition q (n : Z) (d : positive) : Py.number := Q2Qc (n # d).

Definition bar (id name cs : option string) (nodes : option (list string)) : entity :=
  Entity id name cs None None None None nodes None ∅.

Definition result (member load : string)
    (s : list (string * list Py.number)) : entity :=
  Entity None None None None None (Some member) (Some load) None None
         (list_to_map s).

(** One bar whose cross-section is missing, no cross-section collection. *)
Definition bar_A : entity := bar (Some "B1") (Some "Viga 1") (Some "CS-missing") None.
Definition doc_A : document := [("CurveMembers", VList [bar_A])].

(** The same bar without a name. *)
Definition bar_anon : entity := bar (Some "B1") None (Some "CS-missing") None.
Definition doc_anon : document := [("CurveMembers", VList [bar_anon])].

(** [aN = [0, 0, 0]], every other component empty. *)
Definition record_B : entity :=
  result "B1" "LC1"
    [("aN", [q 0 1; q 0 1; q 0 1]); ("aVy", []); ("aVz", []);
     ("aMx", []); ("aMy", []); ("aMz", [])].

(** [aVz = [0, 5.2, 0]], every other component empty. *)
Definition record_C : entity :=
  result "B1" "LC1"
    [("aN", []); ("aVy", []); ("aVz", [q 0 1; q 52 10; q 0 1]);
     ("aMx", []); ("aMy", []); ("aMz", [])].

(** Two mesh records of the same panel and load, with different values. *)
Definition mesh_D1 : entity := result "P1" "LC1" [("amx", [q 1 1; q (-2) 1])].
Definition mesh_D2 : entity := result "P1" "LC1" [("amx", [q 7 2]); ("avy", [q (-4) 1])].
Definition doc_D : document := [("MeshResults", VList [mesh_D1; mesh_D2])].

(** A result whose member is no bar of the document. *)
Definition bar_E : entity := bar (Some "B1") (Some "Viga 1") None None.
Definition record_E : entity := result "B9" "LC1" [("aN", [q 3 1])].
Definition doc_E : document :=
  [("CurveMembers", VList [bar_E]); ("Results1D", VList [record_E])].

(** An opening without surface, next to a surface with an id. *)
Definition surface_F : entity :=
  Entity (Some "S1") (Some "Losa 1") None None None None None None None ∅.
Definition opening_F : entity :=
  Entity (Some "O1") (Some "Hueco 1") None None None None None None None ∅.
Definition doc_F : document :=
  [("SurfaceMembers", VList [surface_F]); ("SurfaceMemberOpenings", VList [opening_F])].

End Scenario.

(* ===================================================================== *)
(** ** Closed forms of the classifier loop *)
(* ===================================================================== *)

(** The index and the summary after the loop over [results]. *)
Definition index_of (COMPS : list string) (results : list entity)
    : gmap (string * string) entity :=
  (foldl (step COMPS) (∅, ∅) results).1.

Definition summary_of (COMPS : list string) (results : list entity)
    : gmap string info :=
  (foldl (step COMPS) (∅, ∅) results).2.

(** The inner loop of [step] seen on one [max_vals] dictionary. *)
Definition bump (r : entity) (mv : gmap string Py.number) (c : string)
    : gmap string Py.number :=
  match Qcabs <$> get_seq r c with
  | [] => mv
  | v :: vs => <[c := Py.max2 (getitem mv c) (Py.max_seq v vs)]> mv
  end.

(** What one record does to the entry of its owner. *)
Definition upd (COMPS : list string) (r : entity) (i : info) : info :=
  let i := if decide (0 < nz_ratio COMPS r)%Qc then add_nonzero i else add_zero i in
  Info (nonzero i) (zero i) (foldl (bump r) (max_vals i) COMPS).

(** The largest absolute value of component [c] over the records [rs],
    0 when they hold no value. *)
Definition max_abs (c : string) (rs : list entity) : Py.number :=
  foldl Py.max2 0%Qc (abs_values c rs).

(** The entry of an owner whose records are [rs]. *)
Definition owner_info (COMPS : list string) (rs : list entity) : info :=
  Info (Py.count (λ r, (0 < nz_ratio COMPS r)%Qc) rs)
       (Py.count (λ r, ¬ (0 < nz_ratio COMPS r)%Qc) rs)
       (foldl (λ mv c, <[c := max_abs c rs]> mv) ∅ COMPS).

(** Two classifications with the same per-owner summary and the same
    counts (their indexes may differ). *)
Definition same_aggregates (c c' : classification) : Prop :=
  owner_summary c = owner_summary c' ∧ n_total c = n_total c' ∧
  n_full c = n_full c' ∧ n_partial c = n_partial c' ∧ n_empty c = n_empty c'.

(** Two renderings that both stop on no result, or both classify with the
    same aggregates. *)
Definition same_rendering (o o' : option rendered) : Prop :=
  match o, o' with
  | Some (NoResults m), Some (NoResults m') => m = m'
  | Some (Results c), Some (Results c') => same_aggregates c c'
  | _, _ => False
  end.

(* ===================================================================== *)
(** ** Closed forms of the validation report *)
(* ===================================================================== *)

(** The orphan detector: owner ids of the results minus geometry ids. *)
Definition orphans (results geometry : list entity) : gset (option string) :=
  member_set results ∖ id_set geometry.

(** The warning list grows by [msg] when [cond] holds. *)
Definition warn_when (cond : Prop) `{Decision cond} (msg : string) : list string :=
  if decide cond then [msg] else [].

(** The warnings of a document, in the order the validator writes them. *)
Definition warns_of (data : document) : list string :=
  let r1d := coll data "Results1D" in
  let mr := coll data "MeshResults" in
  let r1d_o := orphans r1d (coll data "CurveMembers") in
  let mr_o := orphans mr (coll data "SurfaceMembers") in
  let z1 := Py.count (λ r, nz_ratio_1d r = 0%Qc) r1d in
  let zm := Py.count (λ r, nz_ratio_mesh r = 0%Qc) mr in
  warn_when (r1d_o ≠ ∅)
    ("Results1D: " +:+ pretty (size r1d_o) +:+ " barras huérfanas") ++
  warn_when (mr_o ≠ ∅)
    ("MeshResults: " +:+ pretty (size mr_o) +:+ " paneles huérfanos") ++
  warn_when (z1 ≠ 0%nat)
    ("Results1D: " +:+ pretty z1 +:+ "/" +:+ pretty (length r1d) +:+ " vacíos") ++
  warn_when (zm ≠ 0%nat)
    ("MeshResults: " +:+ pretty zm +:+ "/" +:+ pretty (length mr) +:+ " vacíos") ++
  warn_when (empty_keys data ≠ [])
    ("Entidades vacías: " +:+ Py.join ", " (empty_keys data)).
(* ===================================================================== *)
(** ** Tables and detail views *)
(* ===================================================================== *)

(** The cell [csm.get(b.get("CrossSection", ""), "N/A")] of the bars
    table of [render_bars], where [csm] is [id_name_map] of the
    cross-sections. *)
Definition section_label (csm : gmap string string) (b : entity) : string :=
  default "N/A" (csm !! default "" (get_CrossSection b)).

(** The cell ["Estado"] of a summary row:
    ["✅" if info["nonzero"] > 0 else "⬜"]. *)
Definition estado (i : info) : string :=
  if decide (0 < nonzero i)%nat then "✅" else "⬜".

(** [any(abs(x) > 1e-6 for x in v)] on a sequence at hand. *)
Definition seq_nonzero (v : list Py.number) : bool :=
  Py.any (λ x, bool_decide (Py.tol < Qcabs x)%Qc) v.

(** The detail view of a 1D record:
    [comps = {"N (kN)": r.get("aN", []), ...}], in the order written. *)
Definition detail_comps (r : entity) : list (string * list Py.number) :=
  [("N (kN)", get_seq r "aN"); ("Vy (kN)", get_seq r "aVy");
   ("Vz (kN)", get_seq r "aVz"); ("Mx (kNm)", get_seq r "aMx");
   ("My (kNm)", get_seq r "aMy"); ("Mz (kNm)", get_seq r "aMz")].

(** [nz_comps = [n for n, v in comps.items() if any(abs(x) > 1e-6 ...)]] *)
Definition nz_comps (r : entity) : list string :=
  (filter (λ nv, seq_nonzero nv.2 = true) (detail_comps r)).*1.

(** [defaults = [c for c in ["Vz (kN)", "My (kNm)"] if c in nz_comps]
                or nz_comps[:2]] *)
Definition defaults (r : entity) : list string :=
  match filter (λ c, c ∈ nz_comps r) ["Vz (kN)"; "My (kNm)"] with
  | [] => take 2 (nz_comps r)
  | preferred => preferred
  end.

(** The detail view of a mesh record:
    [comps = {c: r.get(c, []) for c in COMPS_MESH if r.get(c)}]. *)
Definition mesh_comps (r : entity) : list (string * list Py.number) :=
  omap (λ c, match get_seq r c with
             | [] => None
             | v => Some (c, v)
             end) COMPS_MESH.

(** [nz_comps = {k: v for k, v in comps.items() if any(abs(x) > 1e-6 ...)}] *)
Definition mesh_nz_comps (r : entity) : list (string * list Py.number) :=
  filter (λ kv, seq_nonzero kv.2 = true) (mesh_comps r).

(** [comp_list = list(nz_comps.keys()) if nz_comps else list(comps.keys())] *)
Definition comp_list (r : entity) : list string :=
  match mesh_nz_comps r with
  | [] => (mesh_comps r).*1
  | nz => nz.*1
  end.

(** [vals = comps.get(sel, [])] for the selected component. *)
Definition selected_vals (r : entity) (sel : string) : list Py.number :=
  default [] ((list_to_map (mesh_comps r) : gmap string (list Py.number)) !! sel).

(* ===================================================================== *)
(** ** The surfaces of the 3D model *)
(* ===================================================================== *)

(** A node as [render_3d_model] reads it: its id and the coordinates
    [n["X"]], [n["Y"]], [n["Z"]], which are subscripted and so have to be
    there. *)
Record point : Type := Point {
  pt_Id : option string;
  pt_X : Py.number;
  pt_Y : Py.number;
  pt_Z : Py.number
}.

(** A surface or an opening as [render_3d_model] reads it:
    [surf.get("Type", 0)] and [surf.get("Nodes", [])]. *)
Record surface : Type := Surface {
  sf_Type : option Z;
  sf_Nodes : option (list string)
}.

(** [nm = {n.get("Id"): n for n in nodes}] *)
Definition node_map (nodes : list point) : gmap (option string) point :=
  foldl (λ nm n, <[pt_Id n := n]> nm) ∅ nodes.

(** [pts = [nm.get(nid) for nid in surf.get("Nodes", [])]] followed by
    [pts = [p for p in pts if p]]: a node is a non-empty dictionary, so the
    second line drops exactly the ids that are not in [nm]. *)
Definition resolved_points (nm : gmap (option string) point) (surf : surface)
    : list point :=
  omap (λ nid, nm !! Some nid) (default [] (sf_Nodes surf)).

(** The accumulator [mx]: vertex coordinates and triangle corners. *)
Record mesh3d : Type := Mesh3d {
  mx_x : list Py.number;
  mx_y : list Py.number;
  mx_z : list Py.number;
  mx_i : list nat;
  mx_j : list nat;
  mx_k : list nat
}.

(** The accumulator [ex]: the outlines, with [None] between polygons. *)
Record edges3d : Type := Edges3d {
  ex_x : list (option Py.number);
  ex_y : list (option Py.number);
  ex_z : list (option Py.number)
}.

(** [mx["x"].append(p["X"]); mx["y"].append(p["Y"]); mx["z"].append(p["Z"])] *)
Definition push_vertex (mx : mesh3d) (p : point) : mesh3d :=
  Mesh3d (Py.append (mx_x mx) (pt_X p)) (Py.append (mx_y mx) (pt_Y p))
         (Py.append (mx_z mx) (pt_Z p)) (mx_i mx) (mx_j mx) (mx_k mx).

(** [mx["i"].append(off); mx["j"].append(off+t+1); mx["k"].append(off+t+2)] *)
Definition push_triangle (off : nat) (mx : mesh3d) (t : nat) : mesh3d :=
  Mesh3d (mx_x mx) (mx_y mx) (mx_z mx)
         (Py.append (mx_i mx) off) (Py.append (mx_j mx) (off + t + 1))
         (Py.append (mx_k mx) (off + t + 2)).

(** [ex["x"].append(p["X"]); ...] *)
Definition push_edge (ex : edges3d) (p : point) : edges3d :=
  Edges3d (Py.append (ex_x ex) (Some (pt_X p))) (Py.append (ex_y ex) (Some (pt_Y p)))
          (Py.append (ex_z ex) (Some (pt_Z p))).

(** [ex["x"].extend([pts[0]["X"], None]); ...], [p0] being [pts[0]]. *)
Definition close_outline (ex : edges3d) (p0 : point) : edges3d :=
  Edges3d (ex_x ex ++ [Some (pt_X p0); None]) (ex_y ex ++ [Some (pt_Y p0); None])
          (ex_z ex ++ [Some (pt_Z p0); None]).

(** One iteration of [for surf in data.get("SurfaceMembers", [])] for the
    surface type [stype]. *)
Definition add_surface (nm : gmap (option string) point) (stype : Z)
    (st : mesh3d * edges3d) (surf : surface) : mesh3d * edges3d :=
  let '(mx, ex) := st in
  if decide (default 0%Z (sf_Type surf) ≠ stype) then st
  else
    let pts := resolved_points nm surf in
    match pts with
    | p0 :: _ =>
        if decide (length pts < 3)%nat then st
        else
          let off := length (mx_x mx) in
          let mx := foldl push_vertex mx pts in
          let mx := foldl (push_triangle off) mx (seq 0 (length pts - 2)) in
          let ex := foldl push_edge ex pts in
          let ex := close_outline ex p0 in
          (mx, ex)
    | [] => st
    end.

(** The loop over the surfaces from the empty accumulators
    [mx, ex = {"x":[], ..., "k":[]}, {"x":[], "y":[], "z":[]}]. *)
Definition surface_mesh (nm : gmap (option string) point) (stype : Z)
    (surfaces : list surface) : mesh3d * edges3d :=
  foldl (add_surface nm stype) (Mesh3d [] [] [] [] [] [], Edges3d [] [] []) surfaces.

(** What a consistent pair of accumulators is: parallel coordinate lists,
    parallel corner lists, and corners that index existing vertices. *)
Definition mesh_ok (st : mesh3d * edges3d) : Prop :=
  let mx := st.1 in
  let ex := st.2 in
  length (mx_y mx) = length (mx_x mx) ∧ length (mx_z mx) = length (mx_x mx) ∧
  length (mx_j mx) = length (mx_i mx) ∧ length (mx_k mx) = length (mx_i mx) ∧
  Forall (λ c, c < length (mx_x mx))%nat (mx_i mx) ∧
  Forall (λ c, c < length (mx_x mx))%nat (mx_j mx) ∧
  Forall (λ c, c < length (mx_x mx))%nat (mx_k mx) ∧
  length (ex_y ex) = length (ex_x ex) ∧ length (ex_z ex) = length (ex_x ex).

(** The surfaces the loop draws for a surface type: those of that type
    (0 when [Type] is absent) with at least three resolved points. *)
Definition drawn (nm : gmap (option string) point) (stype : Z)
    (surfaces : list surface) : list surface :=
  filter (λ s, default 0%Z (sf_Type s) = stype ∧
               (3 ≤ length (resolved_points nm s))%nat) surfaces.

#[global] Instance completeness_eq_dec : EqDecision completeness.
Proof. solve_decision. Defined.

(* ===================================================================== *)
(** ** Numbers *)
(* ===================================================================== *)

Section Numbers.

Implicit Types a b c : Py.number.

Lemma max2_ge_l a b : (a <= Py.max2 a b)%Qc.
Proof.
  unfold Py.max2. destruct (decide (a < b)%Qc) as [H|H].
  - by apply Qclt_le_weak.
  - apply Qcle_refl.
Qed.

Lemma max2_ge_r a b : (b <= Py.max2 a b)%Qc.
Proof.
  unfold Py.max2. destruct (decide (a < b)%Qc) as [H|H].
  - apply Qcle_refl.
  - by apply Qcnot_lt_le.
Qed.

Lemma max2_cases a b : Py.max2 a b = a ∨ Py.max2 a b = b.
Proof. unfold Py.max2. destruct (decide (a < b)%Qc); auto. Qed.

Lemma max2_lub a b c : (a <= c)%Qc → (b <= c)%Qc → (Py.max2 a b <= c)%Qc.
Proof. intros Ha Hb. destruct (max2_cases a b) as [-> | ->]; done. Qed.

Lemma max2_comm a b : Py.max2 a b = Py.max2 b a.
Proof.
  apply Qcle_antisym; apply max2_lub; auto using max2_ge_l, max2_ge_r.
Qed.

Lemma max2_assoc a b c : Py.max2 (Py.max2 a b) c = Py.max2 a (Py.max2 b c).
Proof.
  apply Qcle_antisym.
  - apply max2_lub; [apply max2_lub|].
    + apply max2_ge_l.
    + eapply Qcle_trans; [apply max2_ge_l | apply max2_ge_r].
    + eapply Qcle_trans; [apply max2_ge_r | apply max2_ge_r].
  - apply max2_lub; [|apply max2_lub].
    + eapply Qcle_trans; [apply max2_ge_l | apply max2_ge_l].
    + eapply Qcle_trans; [apply max2_ge_r | apply max2_ge_l].
    + apply max2_ge_r.
Qed.

(** Folding [max] from a start value and taking [max] with the maximum
    of a non-empty sequence agree. *)
Lemma foldl_max2_seq a v (vs : list Py.number) :
  foldl Py.max2 a (v :: vs) = Py.max2 a (Py.max_seq v vs).
Proof.
  unfold Py.max_seq. simpl. revert a v.
  induction vs as [|w vs IH]; intros a v; simpl; [done|].
  rewrite !IH. by rewrite max2_assoc.
Qed.

Lemma foldl_max2_ge a (l : list Py.number) : (a <= foldl Py.max2 a l)%Qc.
Proof.
  revert a. induction l as [|v l IH]; intros a; simpl; [apply Qcle_refl|].
  eapply Qcle_trans; [apply max2_ge_l | apply IH].
Qed.

Lemma foldl_max2_upper a (l : list Py.number) v :
  v ∈ l → (v <= foldl Py.max2 a l)%Qc.
Proof.
  revert a. induction l as [|w l IH]; intros a Hin; [by apply elem_of_nil in Hin|].
  apply elem_of_cons in Hin as [-> | Hin]; simpl.
  - eapply Qcle_trans; [apply max2_ge_r | apply foldl_max2_ge].
  - by apply IH.
Qed.

Lemma foldl_max2_attained a (l : list Py.number) :
  foldl Py.max2 a l = a ∨ foldl Py.max2 a l ∈ l.
Proof.
  revert a. induction l as [|w l IH]; intros a; simpl; [by left|].
  destruct (IH (Py.max2 a w)) as [H | H].
  - rewrite H. destruct (max2_cases a w) as [-> | ->]; [by left|].
    right. apply elem_of_cons. by left.
  - right. apply elem_of_cons. by right.
Qed.

(** A left fold of [max] does not depend on the order of the list. *)
Lemma foldl_max2_perm a (l l' : list Py.number) :
  l ≡ₚ l' → foldl Py.max2 a l = foldl Py.max2 a l'.
Proof.
  intros Hp. revert a.
  induction Hp as [|x l l' _ IH|x y l|l l' l'' _ IH1 _ IH2]; intros a; simpl.
  - done.
  - apply IH.
  - f_equal. rewrite !max2_assoc. f_equal. apply max2_comm.
  - by rewrite IH1.
Qed.

(** The fold from 0 over absolute values is their maximum, or 0. *)
Lemma foldl_max2_is_max (l : list Py.number) :
  (∀ v, v ∈ l → (0 <= v)%Qc) → is_max_or_zero l (foldl Py.max2 0%Qc l).
Proof.
  intros Hpos. destruct l as [|w l]; [left; done|]. right.
  split; [|intros v; apply foldl_max2_upper].
  destruct (foldl_max2_attained 0%Qc (w :: l)) as [H0 | H]; [|done].
  assert (w = 0%Qc) as ->.
  { apply Qcle_antisym; [|apply Hpos, elem_of_cons; by left].
    rewrite <- H0. apply foldl_max2_upper, elem_of_cons. by left. }
  rewrite H0. apply elem_of_cons. by left.
Qed.

Lemma of_nat_le (n m : nat) : (n ≤ m)%nat → (Py.of_nat n <= Py.of_nat m)%Qc.
Proof.
  intros H. unfold Py.of_nat, Qcle. simpl. rewrite !Qred_correct.
  rewrite <- Zle_Qle. lia.
Qed.

Lemma of_nat_pos (n : nat) : (0 < n)%nat → (0 < Py.of_nat n)%Qc.
Proof.
  intros H. unfold Py.of_nat, Qclt. simpl. rewrite !Qred_correct.
  change 0%Q with (inject_Z 0). rewrite <- Zlt_Qlt. lia.
Qed.

(** A quotient of a count by a bound of it lies between 0 and 1. *)
Lemma ratio_range (n t : nat) :
  (n ≤ t)%nat → (0 <= Py.of_nat n / Py.of_nat t)%Qc ∧ (Py.of_nat n / Py.of_nat t <= 1)%Qc.
Proof.
  intros Hle. destruct (decide (t = 0%nat)) as [-> | Ht].
  - assert (n = 0%nat) as -> by lia. split; by vm_compute.
  - assert (0 < Py.of_nat t)%Qc as Hpos by (apply of_nat_pos; lia).
    assert (Py.of_nat t ≠ 0%Qc) as Hne.
    { intros E. rewrite E in Hpos. by apply Qclt_not_eq in Hpos. }
    split; apply (Qcmult_lt_0_le_reg_r _ _ (Py.of_nat t) Hpos);
      rewrite test_field by done.
    + rewrite Qcmult_0_l. change 0%Qc with (Py.of_nat 0). apply of_nat_le. lia.
    + rewrite Qcmult_1_l. by apply of_nat_le.
Qed.

Lemma ratio_zero_iff (n t : nat) :
  (0 < t)%nat → (Py.of_nat n / Py.of_nat t)%Qc = 0%Qc ↔ n = 0%nat.
Proof.
  intros Ht.
  assert (0 < Py.of_nat t)%Qc as Hpos by (by apply of_nat_pos).
  assert (Py.of_nat t ≠ 0%Qc) as Hne.
  { intros E. rewrite E in Hpos. by apply Qclt_not_eq in Hpos. }
  split.
  - intros E. destruct n as [|n]; [done|]. exfalso.
    assert (Py.of_nat (S n) = 0%Qc) as E'.
    { rewrite <- (test_field (Py.of_nat (S n)) (Py.of_nat t)) by done.
      rewrite E. apply Qcmult_0_l. }
    assert (0 < Py.of_nat (S n))%Qc as Hp by (apply of_nat_pos; lia).
    rewrite E' in Hp. by apply Qclt_not_eq in Hp.
  - intros ->. unfold Qcdiv. change (Py.of_nat 0) with 0%Qc. apply Qcmult_0_l.
Qed.

End Numbers.
(* ===================================================================== *)
(** ** The classifier loop *)
(* ===================================================================== *)

Section Counting.

Context {A : Type} (P : A → Prop) `{∀ x, Decision (P x)}.

Lemma count_nil : Py.count P [] = 0%nat.
Proof. done. Qed.

Lemma count_snoc (l : list A) (x : A) :
  Py.count P (l ++ [x]) = (Py.count P l + if decide (P x) then 1 else 0)%nat.
Proof.
  unfold Py.count. rewrite list.filter_app, length_app. f_equal.
  rewrite filter_cons, filter_nil. by destruct (decide (P x)).
Qed.

Lemma count_perm (l l' : list A) : l ≡ₚ l' → Py.count P l = Py.count P l'.
Proof. intros Hp. unfold Py.count. by rewrite Hp. Qed.

Lemma count_le (l : list A) : (Py.count P l ≤ length l)%nat.
Proof. apply length_filter. Qed.

Lemma count_zero_iff (l : list A) : Py.count P l = 0%nat ↔ ∀ x, x ∈ l → ¬ P x.
Proof.
  unfold Py.count. induction l as [|x l IH].
  - split; [intros _ y Hy; by apply elem_of_nil in Hy | done].
  - rewrite filter_cons. destruct (decide (P x)) as [Hx | Hx]; simpl.
    + split; [done|]. intros Hall. exfalso. apply (Hall x); [apply elem_of_cons; by left | done].
    + rewrite IH. split.
      * intros Hall y Hy. apply elem_of_cons in Hy as [-> | Hy]; auto.
      * intros Hall y Hy. apply Hall, elem_of_cons. by right.
Qed.

End Counting.

Section Classifier.

Variable COMPS : list string.
Hypothesis COMPS_nodup : NoDup COMPS.

Lemma const_lookup (f : string → Py.number) (cs : list string)
    (m : gmap string Py.number) (c : string) :
  foldl (λ mv c, <[c := f c]> mv) m cs !! c
  = if decide (c ∈ cs) then Some (f c) else m !! c.
Proof.
  revert m. induction cs as [|d cs IH]; intros m; simpl.
  - destruct (decide (c ∈ [])) as [Hn%elem_of_nil | _]; done.
  - rewrite IH. destruct (decide (c ∈ cs)) as [Hin | Hin].
    + rewrite decide_True; [done | apply elem_of_cons; by right].
    + destruct (decide (d = c)) as [-> | Hne].
      * rewrite lookup_insert_eq. rewrite decide_True; [done | apply elem_of_cons; by left].
      * rewrite lookup_insert_ne by done.
        rewrite decide_False; [done|]. intros [E | E]%elem_of_cons; congruence.
Qed.

Lemma const_ext (f g : string → Py.number) (cs : list string)
    (m : gmap string Py.number) :
  (∀ c, f c = g c) →
  foldl (λ mv c, <[c := f c]> mv) m cs = foldl (λ mv c, <[c := g c]> mv) m cs.
Proof.
  intros E. revert m. induction cs as [|d cs IH]; intros m; simpl; [done|].
  by rewrite E, IH.
Qed.

(** Every [max_vals] the loop builds has exactly the component names as
    keys. *)
Lemma fresh_info_keys (c : string) :
  is_Some (max_vals (fresh_info COMPS) !! c) ↔ c ∈ COMPS.
Proof.
  unfold fresh_info. simpl. rewrite const_lookup.
  destruct (decide (c ∈ COMPS)) as [Hin | Hin]; rewrite ?lookup_empty.
  - split; eauto.
  - split; [intros [? ?]; done | done].
Qed.

Lemma bump_lookup (r : entity) (cs : list string)
    (mv : gmap string Py.number) (c : string) :
  NoDup cs →
  foldl (bump r) mv cs !! c
  = if decide (c ∈ cs)
    then match Qcabs <$> get_seq r c with
         | [] => mv !! c
         | v :: vs => Some (Py.max2 (getitem mv c) (Py.max_seq v vs))
         end
    else mv !! c.
Proof.
  intros Hnd. revert mv.
  induction Hnd as [|d cs Hd Hnd IH]; intros mv; simpl.
  - destruct (decide (c ∈ [])) as [Hn%elem_of_nil | _]; done.
  - rewrite IH. destruct (decide (c ∈ cs)) as [Hin | Hin].
    + assert (d ≠ c) as Hne by (intros ->; done).
      rewrite decide_True by (apply elem_of_cons; by right).
      unfold bump at 1 2, getitem. destruct (Qcabs <$> get_seq r d); [done|].
      by rewrite !lookup_insert_ne.
    + destruct (decide (d = c)) as [-> | Hne].
      * rewrite decide_True by (apply elem_of_cons; by left).
        unfold bump. destruct (Qcabs <$> get_seq r c); [done|].
        by rewrite lookup_insert_eq.
      * rewrite decide_False by (intros [E | E]%elem_of_cons; congruence).
        unfold bump. destruct (Qcabs <$> get_seq r d); [done|].
        by rewrite lookup_insert_ne.
Qed.

(** The inner loop only touches the entry of the owner. *)
Lemma foldl_update_max (bid : string) (r : entity) (cs : list string)
    (s : gmap string info) (i : info) :
  s !! bid = Some i →
  foldl (update_max bid r) s cs
  = <[bid := Info (nonzero i) (zero i) (foldl (bump r) (max_vals i) cs)]> s.
Proof.
  revert s i. induction cs as [|c cs IH]; intros s i Hs; simpl.
  - destruct i. simpl. by rewrite insert_id.
  - unfold update_max at 2, bump at 2.
    destruct (Qcabs <$> get_seq r c) as [|v vs]; [by apply IH|].
    erewrite IH; last first.
    { rewrite lookup_alter_eq, Hs. done. }
    simpl. apply map_eq. intros k. destruct (decide (bid = k)) as [-> | Hne].
    + by rewrite !lookup_insert_eq.
    + by rewrite !lookup_insert_ne, lookup_alter_ne.
Qed.

Lemma step_index idx s r :
  (step COMPS (idx, s) r).1 = <[key_of r := r]> idx.
Proof. done. Qed.

Lemma step_summary idx s r :
  (step COMPS (idx, s) r).2
  = <[owner r := upd COMPS r (default (fresh_info COMPS) (s !! owner r))]> s.
Proof.
  unfold step, owner. simpl. set (bid := default "" (get_Member r)).
  set (s1 := if decide (s !! bid = None) then <[bid := fresh_info COMPS]> s else s).
  set (i0 := default (fresh_info COMPS) (s !! bid)).
  assert (s1 !! bid = Some i0) as H1.
  { unfold s1, i0. destruct (decide (s !! bid = None)) as [E | E].
    - by rewrite lookup_insert_eq, E.
    - destruct (s !! bid); done. }
  assert (∀ k, k ≠ bid → s1 !! k = s !! k) as H2.
  { intros k Hk. unfold s1. destruct (decide (s !! bid = None)); [|done].
    by rewrite lookup_insert_ne. }
  unfold upd.
  destruct (decide (0 < nz_ratio COMPS r)%Qc).
  - erewrite foldl_update_max by (rewrite lookup_alter_eq, H1; done).
    apply map_eq. intros k. destruct (decide (bid = k)) as [<- | Hne].
    + by rewrite !lookup_insert_eq.
    + rewrite !lookup_insert_ne, lookup_alter_ne by done. by apply H2.
  - erewrite foldl_update_max by (rewrite lookup_alter_eq, H1; done).
    apply map_eq. intros k. destruct (decide (bid = k)) as [<- | Hne].
    + by rewrite !lookup_insert_eq.
    + rewrite !lookup_insert_ne, lookup_alter_ne by done. by apply H2.
Qed.

Lemma foldl_step_split st r :
  step COMPS st r = ((step COMPS st r).1, (step COMPS st r).2).
Proof. by destruct (step COMPS st r). Qed.

Lemma index_of_snoc results r :
  index_of COMPS (results ++ [r]) = <[key_of r := r]> (index_of COMPS results).
Proof.
  unfold index_of. rewrite foldl_snoc.
  destruct (foldl (step COMPS) (∅, ∅) results) as [idx s]. apply step_index.
Qed.

Lemma summary_of_snoc results r :
  summary_of COMPS (results ++ [r])
  = <[owner r := upd COMPS r (default (fresh_info COMPS)
                                (summary_of COMPS results !! owner r))]>
      (summary_of COMPS results).
Proof.
  unfold summary_of. rewrite foldl_snoc.
  destruct (foldl (step COMPS) (∅, ∅) results) as [idx s]. apply step_summary.
Qed.

(** The index keeps, for every pair, the last record filed under it. *)
Lemma index_of_lookup results (k : string * string) :
  index_of COMPS results !! k = list.last (filter (λ r, key_of r = k) results).
Proof.
  induction results as [|r results IH] using rev_ind; [done|].
  rewrite index_of_snoc, list.filter_app, filter_cons, filter_nil.
  destruct (decide (key_of r = k)) as [<- | Hne].
  - by rewrite lookup_insert_eq, last_snoc.
  - by rewrite lookup_insert_ne, app_nil_r.
Qed.

Lemma owner_info_nil : owner_info COMPS [] = fresh_info COMPS.
Proof. done. Qed.

Lemma max_abs_snoc c rs r :
  max_abs c (rs ++ [r]) = foldl Py.max2 (max_abs c rs) (Qcabs <$> get_seq r c).
Proof.
  unfold max_abs, abs_values. rewrite bind_app, foldl_app. simpl.
  by rewrite app_nil_r.
Qed.

Lemma upd_owner_info rs r :
  upd COMPS r (owner_info COMPS rs) = owner_info COMPS (rs ++ [r]).
Proof.
  unfold upd, owner_info. rewrite !count_snoc.
  assert (foldl (bump r) (foldl (λ mv c, <[c := max_abs c rs]> mv) ∅ COMPS) COMPS
          = foldl (λ mv c, <[c := max_abs c (rs ++ [r])]> mv) ∅ COMPS) as Hmv.
  { apply map_eq. intros c. rewrite bump_lookup by done. rewrite !const_lookup.
    destruct (decide (c ∈ COMPS)) as [Hin | Hin]; [|done].
    rewrite max_abs_snoc. unfold getitem. rewrite const_lookup, decide_True by done.
    simpl. destruct (Qcabs <$> get_seq r c) as [|v vs]; [done|].
    by rewrite foldl_max2_seq. }
  destruct (decide (0 < nz_ratio COMPS r)%Qc) as [Hr | Hr]; simpl.
  - rewrite decide_False by (intros Hn; done). rewrite Hmv. f_equal; lia.
  - rewrite decide_True by done. rewrite Hmv. f_equal; lia.
Qed.

(** The summary holds, for every owner with a record, the entry computed
    from all of its records, and nothing else. *)
Lemma summary_of_lookup results (bid : string) :
  summary_of COMPS results !! bid
  = match records_of bid results with
    | [] => None
    | _ => Some (owner_info COMPS (records_of bid results))
    end.
Proof.
  induction results as [|r results IH] using rev_ind; [done|].
  rewrite summary_of_snoc. unfold records_of in *.
  rewrite list.filter_app, filter_cons, filter_nil.
  destruct (decide (owner r = bid)) as [<- | Hne].
  - rewrite lookup_insert_eq, IH.
    assert (default (fresh_info COMPS)
              match filter (λ r0, owner r0 = owner r) results with
              | [] => None
              | _ => Some (owner_info COMPS (filter (λ r0, owner r0 = owner r) results))
              end
            = owner_info COMPS (filter (λ r0, owner r0 = owner r) results)) as ->.
    { destruct (filter (λ r0, owner r0 = owner r) results); done. }
    rewrite upd_owner_info.
    destruct (filter (λ r0, owner r0 = owner r) results); done.
  - rewrite lookup_insert_ne by done. by rewrite app_nil_r.
Qed.

Lemma max_abs_perm c rs rs' : rs ≡ₚ rs' → max_abs c rs = max_abs c rs'.
Proof.
  intros Hp. unfold max_abs, abs_values. apply foldl_max2_perm. by rewrite Hp.
Qed.

Lemma owner_info_perm rs rs' :
  rs ≡ₚ rs' → owner_info COMPS rs = owner_info COMPS rs'.
Proof.
  intros Hp. unfold owner_info.
  rewrite (count_perm _ rs rs' Hp), (count_perm (λ r, ¬ _) rs rs' Hp).
  f_equal. apply const_ext. intros c. by apply max_abs_perm.
Qed.

(** The summary does not depend on the order of the records. *)
Lemma summary_of_perm results results' :
  results ≡ₚ results' → summary_of COMPS results = summary_of COMPS results'.
Proof.
  intros Hp. apply map_eq. intros bid. rewrite !summary_of_lookup.
  assert (records_of bid results ≡ₚ records_of bid results') as Hf.
  { unfold records_of. by rewrite Hp. }
  rewrite (owner_info_perm _ _ Hf).
  destruct (records_of bid results) as [|x l] eqn:E1;
    destruct (records_of bid results') as [|x' l'] eqn:E2; try done.
  - by apply Permutation_nil_cons in Hf.
  - symmetry in Hf. by apply Permutation_nil_cons in Hf.
Qed.

Lemma classify_results_fields results :
  classify_results COMPS results
  = Classification (index_of COMPS results) (summary_of COMPS results)
      (length results)
      (Py.count (λ r, nz_ratio COMPS r = 1%Qc) results)
      (Py.count (λ r, (0 < nz_ratio COMPS r)%Qc ∧ (nz_ratio COMPS r < 1)%Qc) results)
      (Py.count (λ r, nz_ratio COMPS r = 0%Qc) results).
Proof.
  unfold classify_results, index_of, summary_of.
  by destruct (foldl (step COMPS) (∅, ∅) results).
Qed.

Lemma nz_ratio_range r :
  (0 <= nz_ratio COMPS r)%Qc ∧ (nz_ratio COMPS r <= 1)%Qc.
Proof. unfold nz_ratio. apply ratio_range, count_le. Qed.

(** Every record is of exactly one of the three kinds. *)
Lemma counts_partition results :
  length results
  = (Py.count (λ r, nz_ratio COMPS r = 1%Qc) results
     + Py.count (λ r, (0 < nz_ratio COMPS r)%Qc ∧ (nz_ratio COMPS r < 1)%Qc) results
     + Py.count (λ r, nz_ratio COMPS r = 0%Qc) results)%nat.
Proof.
  induction results as [|r results IH] using rev_ind; [done|].
  rewrite length_app, !count_snoc, IH. simpl.
  destruct (nz_ratio_range r) as [H0 H1].
  destruct (decide (nz_ratio COMPS r = 1%Qc)) as [E1 | N1];
    destruct (decide ((0 < nz_ratio COMPS r)%Qc ∧ (nz_ratio COMPS r < 1)%Qc)) as [[Ha Hb] | NP];
    destruct (decide (nz_ratio COMPS r = 0%Qc)) as [E0 | N0]; try lia; exfalso.
  - rewrite E1 in E0. done.
  - rewrite E1 in Hb. by apply Qclt_not_eq in Hb.
  - rewrite E1 in E0. done.
  - rewrite E0 in Ha. by apply Qclt_not_eq in Ha.
  - apply NP. split.
    + destruct (Qcle_lt_or_eq _ _ H0) as [? | E]; [done | by symmetry in E].
    + destruct (Qcle_lt_or_eq _ _ H1) as [? | E]; done.
Qed.

End Classifier.

Lemma COMPS_1D_nodup : NoDup COMPS_1D.
Proof. by apply (bool_decide_unpack _). Qed.

Lemma COMPS_MESH_nodup : NoDup COMPS_MESH.
Proof. by apply (bool_decide_unpack _). Qed.

Lemma classify_results_perm COMPS results results' :
  NoDup COMPS → results ≡ₚ results' →
  same_aggregates (classify_results COMPS results) (classify_results COMPS results').
Proof.
  intros Hnd Hp. rewrite !classify_results_fields. unfold same_aggregates.
  cbn [owner_summary n_total n_full n_partial n_empty].
  split; [by apply summary_of_perm|].
  split; [by apply Permutation_length|].
  repeat split; by apply count_perm.
Qed.

Lemma render_results_some key msg COMPS data results :
  data_get data key = Some results →
  render_results key msg COMPS data
  = Some (match results with
          | [] => NoResults msg
          | _ => Results (classify_results COMPS results)
          end).
Proof. intros E. unfold render_results. rewrite E. simpl. by destruct results. Qed.

Lemma render_results_perm key msg COMPS data data' results results' :
  NoDup COMPS →
  data_get data key = Some results → data_get data' key = Some results' →
  results ≡ₚ results' →
  same_rendering (render_results key msg COMPS data) (render_results key msg COMPS data').
Proof.
  intros Hnd E E' Hp.
  rewrite (render_results_some _ _ _ _ _ E), (render_results_some _ _ _ _ _ E').
  destruct results as [|r rs], results' as [|r' rs']; simpl.
  - done.
  - by apply Permutation_nil_cons in Hp.
  - symmetry in Hp. by apply Permutation_nil_cons in Hp.
  - by apply classify_results_perm.
Qed.

(** C1. Permuting the records of a 1D or mesh result collection changes
    neither the per-owner summary (the nonzero and zero load-case counts
    and the per-component maxima) nor the total and the three completeness
    counts, both for the classifier and for what [render_results_1d] and
    [render_mesh_results] hand over. *)
Theorem C1_order_independence (results results' : list entity) :
  results ≡ₚ results' →
  same_aggregates (classify_results COMPS_1D results)
                  (classify_results COMPS_1D results') ∧
  same_aggregates (classify_results COMPS_MESH results)
                  (classify_results COMPS_MESH results') ∧
  (∀ data data',
     data_get data "Results1D" = Some results →
     data_get data' "Results1D" = Some results' →
     same_rendering (render_results_1d data) (render_results_1d data')) ∧
  (∀ data data',
     data_get data "MeshResults" = Some results →
     data_get data' "MeshResults" = Some results' →
     same_rendering (render_mesh_results data) (render_mesh_results data')).
Proof.
  intros Hp. repeat split.
  1-5: by apply classify_results_perm; [apply COMPS_1D_nodup|].
  1-5: by apply classify_results_perm; [apply COMPS_MESH_nodup|].
  - intros data data' E E'.
    by apply (render_results_perm _ _ _ _ _ results results'); [apply COMPS_1D_nodup| | |].
  - intros data data' E E'.
    by apply (render_results_perm _ _ _ _ _ results results'); [apply COMPS_MESH_nodup| | |].
Qed.

Lemma C1_order_independence_witness :
  [Scenario.record_B; Scenario.record_C] ≡ₚ [Scenario.record_C; Scenario.record_B] ∧
  same_aggregates
    (classify_results COMPS_1D [Scenario.record_B; Scenario.record_C])
    (classify_results COMPS_1D [Scenario.record_C; Scenario.record_B]).
Proof.
  split; [apply perm_swap|].
  apply (C1_order_independence [Scenario.record_B; Scenario.record_C]
                               [Scenario.record_C; Scenario.record_B]).
  apply perm_swap.
Defined.

(** C2. On every result collection, the empty one included, the counts of
    the 1D and of the mesh classifier satisfy
    total = complete + partial + empty, where total is the number of
    records, complete counts the records of ratio exactly 1, partial those
    of ratio strictly between 0 and 1, and empty those of ratio exactly 0. *)
Theorem C2_counts_partition (results : list entity) :
  let c1 := classify_results COMPS_1D results in
  let cm := classify_results COMPS_MESH results in
  (n_total c1 = n_full c1 + n_partial c1 + n_empty c1)%nat ∧
  (n_total cm = n_full cm + n_partial cm + n_empty cm)%nat ∧
  (n_total c1 = length results ∧
   n_full c1 = Py.count (λ r, nz_ratio_1d r = 1%Qc) results ∧
   n_partial c1 = Py.count (λ r, (0 < nz_ratio_1d r)%Qc ∧ (nz_ratio_1d r < 1)%Qc) results ∧
   n_empty c1 = Py.count (λ r, nz_ratio_1d r = 0%Qc) results) ∧
  (n_total cm = length results ∧
   n_full cm = Py.count (λ r, nz_ratio_mesh r = 1%Qc) results ∧
   n_partial cm = Py.count (λ r, (0 < nz_ratio_mesh r)%Qc ∧ (nz_ratio_mesh r < 1)%Qc) results ∧
   n_empty cm = Py.count (λ r, nz_ratio_mesh r = 0%Qc) results) ∧
  (n_total (classify_results COMPS_1D []) = 0 ∧
   n_full (classify_results COMPS_1D []) = 0 ∧
   n_partial (classify_results COMPS_1D []) = 0 ∧
   n_empty (classify_results COMPS_1D []) = 0)%nat ∧
  (n_total (classify_results COMPS_MESH []) = 0 ∧
   n_full (classify_results COMPS_MESH []) = 0 ∧
   n_partial (classify_results COMPS_MESH []) = 0 ∧
   n_empty (classify_results COMPS_MESH []) = 0)%nat.
Proof.
  cbv zeta. rewrite !classify_results_fields.
  cbn [n_total n_full n_partial n_empty].
  split; [apply counts_partition|].
  split; [apply counts_partition|].
  repeat split.
Qed.

(* ===================================================================== *)
(** ** Non-zero components *)
(* ===================================================================== *)

Lemma comp_nonzero_true (r : entity) (c : string) :
  comp_nonzero r c = true ↔ ∃ v, v ∈ get_seq r c ∧ (Py.tol < Qcabs v)%Qc.
Proof.
  unfold comp_nonzero, Py.any. rewrite existsb_exists. split.
  - intros (v & Hin & Hv). exists v. split; [by apply list_elem_of_In|].
    by apply bool_decide_eq_true in Hv.
  - intros (v & Hin & Hv). exists v. split; [by apply list_elem_of_In|].
    by apply bool_decide_eq_true.
Qed.

Lemma comp_nonzero_false (r : entity) (c : string) :
  comp_nonzero r c = false ↔ ∀ v, v ∈ get_seq r c → (Qcabs v <= Py.tol)%Qc.
Proof.
  rewrite <- not_true_iff_false, comp_nonzero_true. split.
  - intros Hn v Hin. apply Qcnot_lt_le. intros Hlt. apply Hn. eauto.
  - intros Hall (v & Hin & Hlt). by apply (Qcle_not_lt _ _ (Hall v Hin)).
Qed.

Lemma nz_ratio_zero (COMPS : list string) (r : entity) :
  COMPS ≠ [] →
  nz_ratio COMPS r = 0%Qc ↔ ∀ c, c ∈ COMPS → comp_nonzero r c = false.
Proof.
  intros Hne. unfold nz_ratio. rewrite ratio_zero_iff.
  - rewrite count_zero_iff. split; intros H c Hc.
    + by apply not_true_iff_false, H.
    + by apply not_true_iff_false, H.
  - destruct COMPS; [done | simpl; lia].
Qed.

Lemma classify_empty (COMPS : list string) (r : entity) :
  classify (nz_ratio COMPS r) = Empty ↔ nz_ratio COMPS r = 0%Qc.
Proof.
  unfold classify. destruct (nz_ratio_range COMPS r) as [H0 H1].
  destruct (decide (nz_ratio COMPS r = 1%Qc)) as [E | N].
  - split; [done|]. intros E0. rewrite E0 in E. done.
  - destruct (decide (0 < nz_ratio COMPS r)%Qc) as [Hp | Hn].
    + split; [done|]. intros E0. rewrite E0 in Hp. by apply Qclt_not_eq in Hp.
    + split; [|done]. intros _. apply Qcle_antisym; [by apply Qcnot_lt_le | done].
Qed.

(** C3. A component of a result record is non-zero exactly when some
    element of its sequence is larger than 1e-6 in absolute value, and zero
    exactly when every element (if any: the sequence may be absent or
    empty) is at most 1e-6 in absolute value.  The ratio is the number of
    non-zero components over 6 for 1D and over 8 for meshes, and a record
    is classified Empty exactly when no component is non-zero.  The record
    with [aN = [0, 0, 0]] and every other component empty has ratio 0 and
    is Empty. *)
Theorem C3_component_nonzero (r : entity) (c : string) :
  (comp_nonzero r c = true ↔ ∃ v, v ∈ get_seq r c ∧ (Py.tol < Qcabs v)%Qc) ∧
  (comp_nonzero r c = false ↔ ∀ v, v ∈ get_seq r c → (Qcabs v <= Py.tol)%Qc) ∧
  (seqs r !! c = None ∨ seqs r !! c = Some [] → comp_nonzero r c = false) ∧
  nz_ratio_1d r
  = (Py.of_nat (Py.count (λ c, comp_nonzero r c = true) COMPS_1D) / Py.of_nat 6)%Qc ∧
  nz_ratio_mesh r
  = (Py.of_nat (Py.count (λ c, comp_nonzero r c = true) COMPS_MESH) / Py.of_nat 8)%Qc ∧
  (classify (nz_ratio_1d r) = Empty ↔ ∀ c, c ∈ COMPS_1D → comp_nonzero r c = false) ∧
  (classify (nz_ratio_mesh r) = Empty ↔ ∀ c, c ∈ COMPS_MESH → comp_nonzero r c = false) ∧
  (nz_ratio_1d Scenario.record_B = 0%Qc ∧
   classify (nz_ratio_1d Scenario.record_B) = Empty ∧
   n_empty (classify_results COMPS_1D [Scenario.record_B]) = 1%nat).
Proof.
  split; [apply comp_nonzero_true|].
  split; [apply comp_nonzero_false|].
  split.
  { intros H. apply comp_nonzero_false. unfold get_seq.
    destruct H as [-> | ->]; intros v Hv; by apply elem_of_nil in Hv. }
  split; [done|]. split; [done|].
  split.
  { unfold nz_ratio_1d. rewrite classify_empty. by apply nz_ratio_zero. }
  split.
  { unfold nz_ratio_mesh. rewrite classify_empty. by apply nz_ratio_zero. }
  assert (nz_ratio_1d Scenario.record_B = 0%Qc) as E.
  { apply Qc_is_canon. by vm_compute. }
  split; [done|]. split.
  - unfold nz_ratio_1d in *. by apply classify_empty.
  - rewrite classify_results_fields. cbn [n_empty]. unfold Py.count.
    rewrite filter_cons, filter_nil. unfold nz_ratio_1d in E.
    rewrite decide_True by done. reflexivity.
Qed.

(* ===================================================================== *)
(** ** The per-owner summary *)
(* ===================================================================== *)

Lemma abs_values_nonneg (c : string) (rs : list entity) (v : Py.number) :
  v ∈ abs_values c rs → (0 <= v)%Qc.
Proof.
  unfold abs_values. intros (r & Hv & _)%list_elem_of_bind.
  apply list_elem_of_fmap in Hv as (w & -> & _). apply Qcabs_nonneg.
Qed.

Lemma owner_summary_eq (COMPS : list string) (results : list entity) :
  owner_summary (classify_results COMPS results) = summary_of COMPS results.
Proof. by rewrite classify_results_fields. Qed.

Lemma result_index_eq (COMPS : list string) (results : list entity) :
  result_index (classify_results COMPS results) = index_of COMPS results.
Proof. by rewrite classify_results_fields. Qed.

(** The entry of an owner, component by component. *)
Lemma owner_maxima (COMPS : list string) (results : list entity)
    (bid : string) (i : info) (c : string) :
  NoDup COMPS →
  owner_summary (classify_results COMPS results) !! bid = Some i →
  c ∈ COMPS →
  ∃ m, max_vals i !! c = Some m ∧
       is_max_or_zero (abs_values c (records_of bid results)) m.
Proof.
  intros Hnd Hi Hc. rewrite owner_summary_eq, summary_of_lookup in Hi by done.
  assert (i = owner_info COMPS (records_of bid results)) as ->.
  { destruct (records_of bid results); [done | by injection Hi]. }
  exists (max_abs c (records_of bid results)). split.
  - unfold owner_info. simpl. by rewrite const_lookup, decide_True.
  - apply foldl_max2_is_max. intros v. apply abs_values_nonneg.
Qed.

Lemma owner_present (COMPS : list string) (results : list entity) (bid : string) :
  NoDup COMPS →
  is_Some (owner_summary (classify_results COMPS results) !! bid)
  ↔ ∃ r, r ∈ results ∧ owner r = bid.
Proof.
  intros Hnd. rewrite owner_summary_eq, summary_of_lookup by done.
  unfold records_of. split.
  - intros Hs. destruct (filter (λ r, owner r = bid) results) as [|r l] eqn:E.
    + by destruct Hs.
    + exists r.
      assert (r ∈ filter (λ r, owner r = bid) results) as Hr
        by (rewrite E; apply elem_of_cons; by left).
      apply list_elem_of_filter in Hr as [? ?]. done.
  - intros (r & Hin & Ho).
    assert (r ∈ filter (λ r, owner r = bid) results) as Hf
      by (by apply list_elem_of_filter).
    destruct (filter (λ r, owner r = bid) results); [by apply elem_of_nil in Hf | eauto].
Qed.

Lemma owner_counts (COMPS : list string) (results : list entity)
    (bid : string) (i : info) :
  NoDup COMPS →
  owner_summary (classify_results COMPS results) !! bid = Some i →
  nonzero i = Py.count (λ r, (0 < nz_ratio COMPS r)%Qc) (records_of bid results) ∧
  zero i = Py.count (λ r, ¬ (0 < nz_ratio COMPS r)%Qc) (records_of bid results) ∧
  (nonzero i + zero i)%nat = length (records_of bid results).
Proof.
  intros Hnd Hi. rewrite owner_summary_eq, summary_of_lookup in Hi by done.
  assert (i = owner_info COMPS (records_of bid results)) as ->.
  { destruct (records_of bid results); [done | by injection Hi]. }
  unfold owner_info. simpl. split; [done|]. split; [done|].
  unfold Py.count. rewrite <- length_app. apply Permutation_length.
  apply filter_app_complement.
Qed.

(** C4. For every result collection and owner id, the summary has an
    entry for the owner exactly when the owner has a record; in that entry
    every component holds the maximum of the absolute values of every
    element of that component's sequence across all the records of the
    owner, and 0 when they hold no element.  A single 1D record with
    [aVz = [0, 5.2, 0]] and empty other components has ratio 1/6, is
    Partial, and gives its bar the maximum 5.2 for [aVz]. *)
Theorem C4_owner_maxima (results : list entity) (bid : string) :
  let s1 := owner_summary (classify_results COMPS_1D results) in
  let sm := owner_summary (classify_results COMPS_MESH results) in
  (is_Some (s1 !! bid) ↔ ∃ r, r ∈ results ∧ owner r = bid) ∧
  (is_Some (sm !! bid) ↔ ∃ r, r ∈ results ∧ owner r = bid) ∧
  (∀ i c, s1 !! bid = Some i → c ∈ COMPS_1D →
     ∃ m, max_vals i !! c = Some m ∧
          is_max_or_zero (abs_values c (records_of bid results)) m) ∧
  (∀ i c, sm !! bid = Some i → c ∈ COMPS_MESH →
     ∃ m, max_vals i !! c = Some m ∧
          is_max_or_zero (abs_values c (records_of bid results)) m) ∧
  (nz_ratio_1d Scenario.record_C = Scenario.q 1 6 ∧
   classify (nz_ratio_1d Scenario.record_C) = Partial ∧
   n_partial (classify_results COMPS_1D [Scenario.record_C]) = 1%nat ∧
   (owner_summary (classify_results COMPS_1D [Scenario.record_C]) !! "B1"
      ≫= λ i, max_vals i !! "aVz") = Some (Scenario.q 52 10)).
Proof.
  cbv zeta.
  split; [apply owner_present, COMPS_1D_nodup|].
  split; [apply owner_present, COMPS_MESH_nodup|].
  split; [intros i c; apply owner_maxima, COMPS_1D_nodup|].
  split; [intros i c; apply owner_maxima, COMPS_MESH_nodup|].
  assert (nz_ratio_1d Scenario.record_C = Scenario.q 1 6) as E.
  { apply Qc_is_canon. by vm_compute. }
  split; [done|]. split; [by rewrite E|]. split.
  - rewrite classify_results_fields. cbn [n_partial]. unfold Py.count.
    rewrite filter_cons, filter_nil. unfold nz_ratio_1d in E.
    rewrite decide_True; [reflexivity|]. rewrite E. by split.
  - vm_compute. f_equal. by apply Qc_is_canon.
Qed.

(** C5. Two records with the same (owner id, load id) pair raise no
    error.  The index maps every pair to the last record of the input that
    carries it, while the total is the number of records, the three
    completeness counts add up to it, and the nonzero and zero counts of
    an owner count every one of its records.  In the scenario of two mesh
    records of one panel and load, the index keeps the second only and the
    panel has two non-zero load cases out of a total of 2. *)
Theorem C5_duplicate_keys (results : list entity) :
  let c1 := classify_results COMPS_1D results in
  let cm := classify_results COMPS_MESH results in
  ((∀ k, result_index c1 !! k = list.last (filter (λ r, key_of r = k) results)) ∧
   n_total c1 = length results ∧
   (n_total c1 = n_full c1 + n_partial c1 + n_empty c1)%nat ∧
   (∀ bid i, owner_summary c1 !! bid = Some i →
      nonzero i = Py.count (λ r, (0 < nz_ratio_1d r)%Qc) (records_of bid results) ∧
      zero i = Py.count (λ r, ¬ (0 < nz_ratio_1d r)%Qc) (records_of bid results) ∧
      (nonzero i + zero i)%nat = length (records_of bid results))) ∧
  ((∀ k, result_index cm !! k = list.last (filter (λ r, key_of r = k) results)) ∧
   n_total cm = length results ∧
   (n_total cm = n_full cm + n_partial cm + n_empty cm)%nat ∧
   (∀ bid i, owner_summary cm !! bid = Some i →
      nonzero i = Py.count (λ r, (0 < nz_ratio_mesh r)%Qc) (records_of bid results) ∧
      zero i = Py.count (λ r, ¬ (0 < nz_ratio_mesh r)%Qc) (records_of bid results) ∧
      (nonzero i + zero i)%nat = length (records_of bid results))) ∧
  (∀ data, data_get data "Results1D" = Some results →
     is_Some (render_results_1d data)) ∧
  (∀ data, data_get data "MeshResults" = Some results →
     is_Some (render_mesh_results data)) ∧
  (key_of Scenario.mesh_D1 = key_of Scenario.mesh_D2 ∧
   Scenario.mesh_D1 ≠ Scenario.mesh_D2 ∧
   ∃ c, render_mesh_results Scenario.doc_D = Some (Results c) ∧
        result_index c = {[ ("P1", "LC1") := Scenario.mesh_D2 ]} ∧
        (nonzero <$> owner_summary c !! "P1") = Some 2%nat ∧
        (zero <$> owner_summary c !! "P1") = Some 0%nat ∧
        n_total c = 2%nat).
Proof.
  cbv zeta. split; [|split].
  - split; [intros k; rewrite result_index_eq; apply index_of_lookup|].
    rewrite classify_results_fields. cbn [n_total n_full n_partial n_empty].
    split; [done|]. split; [apply counts_partition|].
    intros bid i Hi. apply (owner_counts COMPS_1D results bid i COMPS_1D_nodup).
    by rewrite owner_summary_eq.
  - split; [intros k; rewrite result_index_eq; apply index_of_lookup|].
    rewrite classify_results_fields. cbn [n_total n_full n_partial n_empty].
    split; [done|]. split; [apply counts_partition|].
    intros bid i Hi. apply (owner_counts COMPS_MESH results bid i COMPS_MESH_nodup).
    by rewrite owner_summary_eq.
  - split; [|split].
    + intros data E. unfold render_results_1d.
      rewrite (render_results_some _ _ _ _ _ E). eauto.
    + intros data E. unfold render_mesh_results.
      rewrite (render_results_some _ _ _ _ _ E). eauto.
    + split; [done|]. split.
      { intros E. apply (f_equal (λ r, get_seq r "avy")) in E. by vm_compute in E. }
      exists (classify_results COMPS_MESH [Scenario.mesh_D1; Scenario.mesh_D2]).
      split; [reflexivity|].
      split; [vm_compute; reflexivity|]. split; [vm_compute; reflexivity|].
      split; vm_compute; reflexivity.
Qed.

(* ===================================================================== *)
(** ** The validation loops *)
(* ===================================================================== *)

Section Loops.

(** A loop whose body appends to the accumulator appends, in order, what
    each element contributes. *)
Lemma foldl_append {A B : Type} (f : list B → A → list B) (g : A → list B) :
  (∀ acc a, f acc a = acc ++ g a) →
  ∀ l acc, foldl f acc l = acc ++ (l ≫= g).
Proof.
  intros Hf l. induction l as [|a l IH]; intros acc; simpl.
  - by rewrite app_nil_r.
  - by rewrite IH, Hf, <- app_assoc.
Qed.

Lemma fmap_bind_list {A B C : Type} (f : B → C) (g : A → list B) (l : list A) :
  f <$> (l ≫= g) = l ≫= (λ x, f <$> g x).
Proof.
  induction l as [|a l IH]; [done|].
  by rewrite !bind_cons, fmap_app, IH.
Qed.

Lemma append_unless_in_eq ids x msg issues :
  append_unless_in ids x msg issues
  = issues ++ (if decide (Some x ∉ ids) then [msg] else []).
Proof.
  unfold append_unless_in, Py.append.
  destruct (decide (Some x ∉ ids)); [done | by rewrite app_nil_r].
Qed.

Lemma issue_of_pick ids kind src x :
  issue_of <$> pick ids kind src x
  = if decide (Some x ∉ ids) then [issue_of (Unresolved kind src x)] else [].
Proof. unfold pick. by destruct (decide (Some x ∉ ids)). Qed.

Lemma truthy_spec (s : string) : Py.truthy s = true ↔ s ≠ "".
Proof.
  unfold Py.truthy. rewrite negb_true_iff. split.
  - intros E ->. by rewrite String.eqb_refl in E.
  - intros Hne. by apply String.eqb_neq.
Qed.

Lemma guarded_append_eq ids kind (src : entity) x msg issues :
  msg = issue_of (Unresolved kind src x) →
  (if Py.truthy x && bool_decide (Some x ∉ ids) then Py.append issues msg else issues)
  = issues ++ (issue_of <$> pick_nonempty ids kind src x).
Proof.
  intros ->. unfold pick_nonempty, pick, Py.append.
  destruct (decide (x = "")) as [-> | Hne].
  - simpl. by rewrite app_nil_r.
  - apply truthy_spec in Hne. rewrite Hne. simpl.
    destruct (decide (Some x ∉ ids)) as [Hd | Hd].
    + by rewrite bool_decide_eq_true_2.
    + rewrite bool_decide_eq_false_2 by done. by rewrite app_nil_r.
Qed.

Lemma refs_loop ids kind (src : entity) (msg : string → string)
    (xs : list string) issues :
  (∀ x, msg x = issue_of (Unresolved kind src x)) →
  foldl (λ issues x, append_unless_in ids x (msg x) issues) issues xs
  = issues ++ (issue_of <$> (x ← xs; pick ids kind src x)).
Proof.
  intros Hmsg.
  rewrite (foldl_append _ (λ x, issue_of <$> pick ids kind src x)).
  - by rewrite fmap_bind_list.
  - intros acc x. by rewrite append_unless_in_eq, issue_of_pick, Hmsg.
Qed.

Lemma check_section_eq mat_ids issues cs :
  check_section mat_ids issues cs
  = issues ++ (issue_of <$> (mid ← default [] (get_Materials cs);
                             pick mat_ids SectionMaterial cs mid)).
Proof. unfold check_section. by apply refs_loop. Qed.

Lemma check_bar_eq cs_ids node_ids issues b :
  check_bar cs_ids node_ids issues b
  = issues ++ (issue_of <$>
      (pick_nonempty cs_ids BarSection b (default "" (get_CrossSection b)) ++
       (nid ← default [] (get_Nodes b); pick node_ids BarNode b nid))).
Proof.
  unfold check_bar. cbv zeta.
  rewrite (guarded_append_eq cs_ids BarSection b) by done.
  rewrite (refs_loop node_ids BarNode b) by done.
  by rewrite fmap_app, app_assoc.
Qed.

Lemma check_surface_eq node_ids issues s :
  check_surface node_ids issues s
  = issues ++ (issue_of <$> (nid ← default [] (get_Nodes s);
                             pick node_ids SurfaceNode s nid)).
Proof. unfold check_surface. by apply refs_loop. Qed.

Lemma check_support_eq node_ids issues sup :
  check_support node_ids issues sup
  = issues ++ (issue_of <$>
      pick_nonempty node_ids SupportNode sup (default "" (get_Node sup))).
Proof. unfold check_support. cbv zeta. by apply guarded_append_eq. Qed.

Lemma check_opening_eq surf_ids issues o :
  check_opening surf_ids issues o
  = issues ++ (issue_of <$>
      pick surf_ids OpeningSurface o (default "" (get_Surface o))).
Proof.
  unfold check_opening. by rewrite append_unless_in_eq, issue_of_pick.
Qed.

Lemma append_if_eq (P : Prop) `{Decision P} msg warns :
  append_if (bool_decide P) msg warns = warns ++ warn_when P msg.
Proof.
  unfold append_if, warn_when, Py.append.
  destruct (decide P).
  - by rewrite bool_decide_eq_true_2.
  - rewrite bool_decide_eq_false_2 by done. by rewrite app_nil_r.
Qed.

End Loops.

Lemma data_get_coll data k :
  is_Some (data_get data k) → data_get data k = Some (coll data k).
Proof. intros [l E]. unfold coll. by rewrite E. Qed.

Lemma well_formed_get data k :
  well_formed data → k ∈ COLLECTIONS → data_get data k = Some (coll data k).
Proof.
  intros Hwf Hk. apply data_get_coll.
  unfold well_formed in Hwf. rewrite list.Forall_forall in Hwf. by apply Hwf.
Qed.

(** On a well-formed document the validator returns, as errors, the texts of
    the unresolved references in order and, as warnings, [warns_of]. *)
Lemma render_validation_eq data :
  well_formed data →
  render_validation data = Some (issue_of <$> unresolved_refs data, warns_of data).
Proof.
  intros Hwf. unfold render_validation.
  rewrite !(well_formed_get data _ Hwf) by (unfold COLLECTIONS; set_solver).
  cbn [mbind option_bind]. cbv zeta. f_equal. f_equal.
  - rewrite (foldl_append _ _ (check_section_eq _)).
    rewrite (foldl_append _ _ (check_bar_eq _ _)).
    rewrite (foldl_append _ _ (check_surface_eq _)).
    rewrite (foldl_append _ _ (check_support_eq _)).
    rewrite (foldl_append _ _ (check_opening_eq _)).
    unfold unresolved_refs. cbv zeta.
    rewrite !fmap_app, !fmap_bind_list, !app_assoc. done.
  - rewrite !append_if_eq. unfold warns_of, orphans. cbv zeta.
    rewrite !app_assoc. done.
Qed.

(* ===================================================================== *)
(** ** Unresolved references *)
(* ===================================================================== *)

Lemma elem_of_pick ids kind src x (u : unresolved) :
  u ∈ pick ids kind src x ↔ u = Unresolved kind src x ∧ Some x ∉ ids.
Proof.
  unfold pick. destruct (decide (Some x ∉ ids)) as [Hd | Hd].
  - rewrite list_elem_of_singleton. split; [by intros -> | by intros [-> _]].
  - split; [by intros ?%elem_of_nil | by intros [_ ?]].
Qed.

Lemma elem_of_pick_nonempty ids kind src x (u : unresolved) :
  u ∈ pick_nonempty ids kind src x
  ↔ u = Unresolved kind src x ∧ x ≠ "" ∧ Some x ∉ ids.
Proof.
  unfold pick_nonempty. destruct (decide (x = "")) as [-> | Hne].
  - split; [by intros ?%elem_of_nil | by intros (_ & ? & _)].
  - rewrite elem_of_pick. split; [by intros [-> ?] | by intros (-> & _ & ?)].
Qed.

Lemma default_nonempty (o : option string) (x : string) :
  default "" o = x ∧ x ≠ "" ↔ o = Some x ∧ x ≠ "".
Proof.
  destruct o as [s|]; simpl.
  - split; [by intros [-> ?] | intros [E ?]; by injection E as ->].
  - split; [by intros [<- ?] | by intros [? _]].
Qed.

(** The list of unresolved references holds exactly the dangling ones. *)
Lemma elem_of_unresolved_refs data (u : unresolved) :
  u ∈ unresolved_refs data ↔ is_dangling data u.
Proof.
  unfold unresolved_refs. cbv zeta. rewrite !elem_of_app.
  repeat setoid_rewrite list_elem_of_bind.
  repeat setoid_rewrite elem_of_app.
  repeat setoid_rewrite list_elem_of_bind.
  repeat setoid_rewrite elem_of_pick_nonempty.
  repeat setoid_rewrite elem_of_pick.
  destruct u as [kind src x]. unfold is_dangling. cbn [u_kind u_source u_id].
  split.
  - intros H. destruct kind;
      repeat match goal with
             | H : _ ∨ _ |- _ => destruct H
             | H : ∃ _, _ |- _ => destruct H
             | H : _ ∧ _ |- _ => destruct H
             | H : Unresolved _ _ _ = Unresolved _ _ _ |- _ => simplify_eq
             end;
      try done.
    + split; [done|]. split; [|split]; try done.
      by apply (default_nonempty (get_CrossSection _)).
    + split; [done|]. split; [|split]; try done.
      by apply (default_nonempty (get_Node _)).
  - intros H. destruct kind.
    + destruct H as (? & ? & ?). left. exists src. split; [|done]. exists x. done.
    + destruct H as (? & E & ? & ?). right. left. exists src. split; [|done].
      left. rewrite E. done.
    + destruct H as (? & ? & ?). right. left. exists src. split; [|done].
      right. exists x. done.
    + destruct H as (? & ? & ?). do 2 right. left. exists src. split; [|done].
      exists x. done.
    + destruct H as (? & E & ? & ?). do 3 right. left. exists src. split; [|done].
      rewrite E. done.
    + destruct H as (? & E & ?). do 4 right. exists src. split; [|done].
      rewrite E. done.
Qed.

(* ===================================================================== *)
(** ** What an issue carries *)
(* ===================================================================== *)

Lemma prefix_app (s t : string) : String.prefix s (s +:+ t) = true.
Proof.
  induction s as [|a s IH]; simpl; [by destruct t|].
  destruct (Ascii.ascii_dec a a); [done | congruence].
Qed.

Lemma contains_unfold (sub s : string) :
  Py.contains sub s
  = String.prefix sub s ||
    match s with
    | EmptyString => false
    | String _ s' => Py.contains sub s'
    end.
Proof. by destruct s. Qed.

Lemma contains_complete (msg s : string) : carries msg s → Py.contains s msg = true.
Proof.
  intros (pre & post & ->). induction pre as [|a pre IH].
  - change ("" +:+ s +:+ post) with (s +:+ post).
    by rewrite contains_unfold, prefix_app.
  - change (String a pre +:+ s +:+ post) with (String a (pre +:+ s +:+ post)).
    rewrite contains_unfold, IH. apply orb_true_r.
Qed.

Lemma carries_mid (a s b : string) : carries (a +:+ s +:+ b) s.
Proof. by exists a, b. Qed.

Lemma append_assoc (a b c : string) : (a +:+ b) +:+ c = a +:+ (b +:+ c).
Proof.
  induction a as [|x a IH]; [done|].
  change (String x ((a +:+ b) +:+ c) = String x (a +:+ (b +:+ c))).
  by rewrite IH.
Qed.

Lemma carries_name (u : unresolved) :
  carries (issue_of u) (Py.fmt (get_Name (u_source u))).
Proof. unfold issue_of. destruct (u_kind u); apply carries_mid. Qed.

Lemma carries_inner (a n b s c : string) : carries (a +:+ n +:+ b +:+ s +:+ c) s.
Proof. exists (a +:+ n +:+ b), c. by rewrite !append_assoc. Qed.

Lemma carries_node_id (u : unresolved) :
  u_kind u = BarNode ∨ u_kind u = SurfaceNode → carries (issue_of u) (u_id u).
Proof.
  unfold issue_of, msg_bar_node, msg_surface_node. intros H.
  destruct (u_kind u); try (destruct H; discriminate); apply carries_inner.
Qed.

(* ===================================================================== *)
(** ** Orphans, warnings and the clean report *)
(* ===================================================================== *)

Lemma elem_of_id_set (items : list entity) (x : option string) :
  x ∈ id_set items ↔ ∃ g, g ∈ items ∧ get_Id g = x.
Proof.
  unfold id_set. rewrite elem_of_list_to_set, list_elem_of_fmap. split.
  - intros (g & -> & Hg). eauto.
  - intros (g & Hg & <-). eauto.
Qed.

Lemma elem_of_member_set (items : list entity) (x : option string) :
  x ∈ member_set items ↔ ∃ r, r ∈ items ∧ get_Member r = x.
Proof.
  unfold member_set. rewrite elem_of_list_to_set, list_elem_of_fmap. split.
  - intros (g & -> & Hg). eauto.
  - intros (g & Hg & <-). eauto.
Qed.

(** The set the validator computes is the set of orphans of the contract. *)
Lemma elem_of_orphans (results geometry : list entity) (x : option string) :
  x ∈ orphans results geometry ↔ is_orphan results geometry x.
Proof.
  unfold orphans, is_orphan.
  rewrite elem_of_difference, elem_of_member_set, elem_of_id_set. split.
  - intros [Hr Hn]. split; [done|]. intros g Hg E. apply Hn. eauto.
  - intros [Hr Hn]. split; [done|]. intros (g & Hg & E). by apply (Hn g).
Qed.

Lemma orphans_empty (results geometry : list entity) :
  orphans results geometry = ∅ ↔ ∀ x, ¬ is_orphan results geometry x.
Proof.
  rewrite elem_of_equiv_empty_L. split.
  - intros H x Hx. by apply (H x), elem_of_orphans.
  - intros H x Hx. by apply (H x), elem_of_orphans.
Qed.

Lemma warn_when_nil (P : Prop) `{Decision P} (msg : string) :
  warn_when P msg = [] ↔ ¬ P.
Proof. unfold warn_when. destruct (decide P); split; done. Qed.

Lemma empty_keys_nil (data : document) :
  empty_keys data = [] ↔ ∀ k, (k, VList []) ∉ data.
Proof.
  unfold empty_keys. induction data as [|[k v] data IH].
  - split; [intros _ k Hk; by apply elem_of_nil in Hk | done].
  - cbn [omap list_omap]. cbn [fst snd].
    destruct v as [[|e items]|].
    + split; [done|]. intros H. exfalso. apply (H k), elem_of_cons. by left.
    + fold (omap (λ kv : string * value,
                    match kv.2 with VList [] => Some kv.1 | _ => None end) data).
      rewrite IH. split.
      * intros H k' [E | Hin]%elem_of_cons; [done | by apply (H k')].
      * intros H k' Hin. apply (H k'), elem_of_cons. by right.
    + fold (omap (λ kv : string * value,
                    match kv.2 with VList [] => Some kv.1 | _ => None end) data).
      rewrite IH. split.
      * intros H k' [E | Hin]%elem_of_cons; [done | by apply (H k')].
      * intros H k' Hin. apply (H k'), elem_of_cons. by right.
Qed.

Lemma warns_of_nil (data : document) :
  warns_of data = []
  ↔ (∀ x, ¬ is_orphan (coll data "Results1D") (coll data "CurveMembers") x) ∧
    (∀ x, ¬ is_orphan (coll data "MeshResults") (coll data "SurfaceMembers") x) ∧
    (∀ r, r ∈ coll data "Results1D" → nz_ratio_1d r ≠ 0%Qc) ∧
    (∀ r, r ∈ coll data "MeshResults" → nz_ratio_mesh r ≠ 0%Qc) ∧
    (∀ k, (k, VList []) ∉ data).
Proof.
  unfold warns_of. cbv zeta. rewrite !app_nil, !warn_when_nil.
  rewrite <- !orphans_empty, <- empty_keys_nil.
  rewrite <- !(count_zero_iff (λ r, _ = 0%Qc)).
  split.
  - intros (H1 & H2 & H3 & H4 & H5). repeat split; by apply dec_stable.
  - intros (H1 & H2 & H3 & H4 & H5). repeat split; by intros Hn.
Qed.

Lemma unresolved_refs_nil (data : document) :
  unresolved_refs data = [] ↔ ∀ u, ¬ is_dangling data u.
Proof.
  split.
  - intros E u Hu. apply elem_of_unresolved_refs in Hu. rewrite E in Hu.
    by apply elem_of_nil in Hu.
  - intros H. destruct (unresolved_refs data) as [|u l] eqn:E; [done|].
    exfalso. apply (H u), elem_of_unresolved_refs. rewrite E.
    apply elem_of_cons. by left.
Qed.

(* ===================================================================== *)
(** ** Texts of the bar checks *)
(* ===================================================================== *)

Lemma append_inj_l (a x y : string) : a +:+ x = a +:+ y → x = y.
Proof.
  induction a as [|c a IH]; [done|].
  change (String c (a +:+ x) = String c (a +:+ y) → x = y).
  intros E. injection E as E. by apply IH.
Qed.

Lemma msg_bar_section_node (b : entity) (nid : string) :
  msg_bar_section b ≠ msg_bar_node b nid.
Proof.
  unfold msg_bar_section, msg_bar_node. intros E.
  apply append_inj_l, append_inj_l in E. vm_compute in E. discriminate.
Qed.

Lemma scenario_A_well_formed : well_formed Scenario.doc_A.
Proof. unfold well_formed. apply (bool_decide_unpack _). vm_compute. reflexivity. Qed.

Lemma scenario_E_well_formed : well_formed Scenario.doc_E.
Proof. unfold well_formed. apply (bool_decide_unpack _). vm_compute. reflexivity. Qed.

Lemma scenario_F_well_formed : well_formed Scenario.doc_F.
Proof. unfold well_formed. apply (bool_decide_unpack _). vm_compute. reflexivity. Qed.

(* ===================================================================== *)
(** ** Reference validator *)
(* ===================================================================== *)

(** C6, as stated, fails.  For the bar without a name, of id [B1], whose
    cross-section [CS-missing] resolves to nothing, the validator writes one
    issue that carries neither the id of the bar, which is what
    [id_name_map] would show for it, nor the dangling id. *)
Lemma C6_counterexample :
  ∃ issue,
    render_validation Scenario.doc_anon = Some ([issue], []) ∧
    display_name Scenario.bar_anon = "B1" ∧
    ¬ carries issue (display_name Scenario.bar_anon) ∧
    ¬ carries issue "CS-missing".
Proof.
  exists (msg_bar_section Scenario.bar_anon).
  split; [vm_compute; reflexivity|]. split; [reflexivity|].
  split; intros H%contains_complete; vm_compute in H; discriminate.
Qed.

(** C6, amended.  On a well-formed document the errors of the validator
    are, one for one and in order, the texts of the unresolved references,
    which are exactly the dangling references of the six relations.  Each
    text carries the [Name] member of the source object as an f-string
    renders it ([None] when absent, never the id), and it carries the
    dangling id for the node references of bars and surfaces.  The document
    with one bar of cross-section [CS-missing] and no cross-section
    collection yields exactly one error, which names that bar. *)
Theorem C6_issue_per_unresolved_reference (data : document) :
  well_formed data →
  (∃ warns, render_validation data = Some (issue_of <$> unresolved_refs data, warns)) ∧
  (∀ u, u ∈ unresolved_refs data ↔ is_dangling data u) ∧
  (∀ u, carries (issue_of u) (Py.fmt (get_Name (u_source u)))) ∧
  (∀ u, u_kind u = BarNode ∨ u_kind u = SurfaceNode →
        carries (issue_of u) (u_id u)) ∧
  (render_validation Scenario.doc_A
   = Some (["Barra 'Viga 1' → sección inexistente"], []) ∧
   get_Name Scenario.bar_A = Some "Viga 1" ∧
   carries "Barra 'Viga 1' → sección inexistente" "Viga 1").
Proof.
  intros Hwf.
  split; [exists (warns_of data); by apply render_validation_eq|].
  split; [apply elem_of_unresolved_refs|].
  split; [apply carries_name|].
  split; [apply carries_node_id|].
  split; [vm_compute; reflexivity|]. split; [reflexivity|].
  by exists "Barra '", "' → sección inexistente".
Qed.

Lemma C6_issue_per_unresolved_reference_witness :
  well_formed Scenario.doc_A ∧
  ∃ warns, render_validation Scenario.doc_A
           = Some (issue_of <$> unresolved_refs Scenario.doc_A, warns).
Proof.
  split; [apply scenario_A_well_formed|].
  destruct (C6_issue_per_unresolved_reference Scenario.doc_A scenario_A_well_formed)
    as [H _].
  exact H.
Defined.

(** C7. On a well-formed document the report has no error and no warning
    exactly when the document has no dangling reference, no orphaned result
    owner in either result collection, no result record of ratio 0, and no
    collection that is present with zero records. *)
Theorem C7_clean_report (data : document) :
  well_formed data →
  ∃ issues warns,
    render_validation data = Some (issues, warns) ∧
    ((length issues + length warns = 0)%nat
     ↔ (∀ u, ¬ is_dangling data u) ∧
       (∀ x, ¬ is_orphan (coll data "Results1D") (coll data "CurveMembers") x) ∧
       (∀ x, ¬ is_orphan (coll data "MeshResults") (coll data "SurfaceMembers") x) ∧
       (∀ r, r ∈ coll data "Results1D" → nz_ratio_1d r ≠ 0%Qc) ∧
       (∀ r, r ∈ coll data "MeshResults" → nz_ratio_mesh r ≠ 0%Qc) ∧
       (∀ k, (k, VList []) ∉ data)).
Proof.
  intros Hwf. exists (issue_of <$> unresolved_refs data), (warns_of data).
  split; [by apply render_validation_eq|].
  rewrite <- warns_of_nil, <- unresolved_refs_nil. split.
  - intros H.
    assert (length (issue_of <$> unresolved_refs data) = 0%nat) as H1 by lia.
    assert (length (warns_of data) = 0%nat) as H2 by lia.
    rewrite length_fmap in H1. split; by apply nil_length_inv.
  - intros [-> ->]. done.
Qed.

Lemma C7_clean_report_witness :
  well_formed Scenario.doc_A ∧
  ∃ issues warns, render_validation Scenario.doc_A = Some (issues, warns).
Proof.
  split; [apply scenario_A_well_formed|].
  destruct (C7_clean_report Scenario.doc_A scenario_A_well_formed)
    as (issues & warns & H & _).
  exists issues, warns. exact H.
Defined.

(** C8. While it visits a bar, the validator appends the cross-section
    issue of that bar exactly when the [CrossSection] member is a non-empty
    string that is not the id of a cross-section: nothing is appended for
    that member when it is absent or the empty string.  On a well-formed
    document, a bar with an absent or empty [CrossSection] has no unresolved
    cross-section reference among the errors, and a bar with a non-empty
    one that is no cross-section id has its issue among them. *)
Theorem C8_cross_section_guard :
  (∀ cs_ids node_ids issues b,
     ∃ new, check_bar cs_ids node_ids issues b = issues ++ new ∧
            (msg_bar_section b ∈ new
             ↔ ∃ s, get_CrossSection b = Some s ∧ s ≠ "" ∧ Some s ∉ cs_ids)) ∧
  (∀ data b,
     well_formed data → b ∈ coll data "CurveMembers" →
     ∃ warns,
       render_validation data = Some (issue_of <$> unresolved_refs data, warns) ∧
       (get_CrossSection b = None ∨ get_CrossSection b = Some "" →
        ∀ x, Unresolved BarSection b x ∉ unresolved_refs data) ∧
       (∀ s, get_CrossSection b = Some s → s ≠ "" →
             Some s ∉ id_set (coll data "CrossSections") →
             Unresolved BarSection b s ∈ unresolved_refs data ∧
             msg_bar_section b ∈ issue_of <$> unresolved_refs data)).
Proof.
  split.
  - intros cs_ids node_ids issues b. eexists. split; [apply check_bar_eq|].
    rewrite fmap_app, elem_of_app, !list_elem_of_fmap. split.
    + intros [(u & E & Hu) | (u & E & Hu)].
      * apply elem_of_pick_nonempty in Hu as (-> & Hne & Hn).
        exists (default "" (get_CrossSection b)). split; [|done].
        by apply (default_nonempty (get_CrossSection b)).
      * apply list_elem_of_bind in Hu as (nid & Hu & _).
        apply elem_of_pick in Hu as [-> _]. by apply msg_bar_section_node in E.
    + intros (s & E & Hne & Hn). left. exists (Unresolved BarSection b s).
      split; [done|]. rewrite E. by apply elem_of_pick_nonempty.
  - intros data b Hwf Hb. exists (warns_of data).
    split; [by apply render_validation_eq|]. split.
    + intros Hcs x Hx. apply elem_of_unresolved_refs in Hx.
      destruct Hx as (_ & E & Hne & _). cbn [u_source u_id] in *.
      destruct Hcs as [Hcs | Hcs]; rewrite Hcs in E; [done|].
      injection E as <-. done.
    + intros s E Hne Hn.
      assert (Unresolved BarSection b s ∈ unresolved_refs data) as Hu.
      { apply elem_of_unresolved_refs. by repeat split. }
      split; [done|]. apply list_elem_of_fmap. by exists (Unresolved BarSection b s).
Qed.

Lemma C8_cross_section_guard_witness :
  well_formed Scenario.doc_A ∧
  Scenario.bar_A ∈ coll Scenario.doc_A "CurveMembers" ∧
  ∃ warns,
    render_validation Scenario.doc_A
    = Some (issue_of <$> unresolved_refs Scenario.doc_A, warns).
Proof.
  split; [apply scenario_A_well_formed|].
  assert (Scenario.bar_A ∈ coll Scenario.doc_A "CurveMembers") as Hb.
  { vm_compute. apply elem_of_cons. left. reflexivity. }
  split; [exact Hb|].
  destruct C8_cross_section_guard as [_ H].
  destruct (H Scenario.doc_A Scenario.bar_A scenario_A_well_formed Hb)
    as (warns & E & _).
  exists warns. exact E.
Defined.

(* ===================================================================== *)
(** ** Orphan detector and openings *)
(* ===================================================================== *)

Lemma coll_agree (data data' : document) (k : string) :
  data_get data' k = data_get data k → coll data' k = coll data k.
Proof. unfold coll. by intros ->. Qed.

(** The unresolved references only depend on the geometry collections. *)
Lemma unresolved_refs_geometry (data data' : document) :
  (∀ k, k ≠ "Results1D" → k ≠ "MeshResults" → data_get data' k = data_get data k) →
  unresolved_refs data' = unresolved_refs data.
Proof.
  intros H. unfold unresolved_refs.
  rewrite !(coll_agree data data') by (by apply H). done.
Qed.

(** C9. The set the orphan detector computes for a result collection is
    exactly the set of owner ids that occur in a record and are the id of
    no geometry object; when it is not empty, the validator reports it, with
    its cardinality, as the first warnings of the report.  The errors of
    the validator are the same whatever the result collections hold: a 1D
    result whose member is no bar gives a warning of the orphan detector and
    no error. *)
Theorem C9_orphan_detector (data : document) :
  well_formed data →
  let r1d_o := orphans (coll data "Results1D") (coll data "CurveMembers") in
  let mr_o := orphans (coll data "MeshResults") (coll data "SurfaceMembers") in
  (∀ x, x ∈ r1d_o
        ↔ is_orphan (coll data "Results1D") (coll data "CurveMembers") x) ∧
  (∀ x, x ∈ mr_o
        ↔ is_orphan (coll data "MeshResults") (coll data "SurfaceMembers") x) ∧
  (∃ rest,
     render_validation data
     = Some (issue_of <$> unresolved_refs data,
             warn_when (r1d_o ≠ ∅)
               ("Results1D: " +:+ pretty (size r1d_o) +:+ " barras huérfanas") ++
             warn_when (mr_o ≠ ∅)
               ("MeshResults: " +:+ pretty (size mr_o) +:+ " paneles huérfanos") ++
             rest)) ∧
  (∀ data',
     well_formed data' →
     (∀ k, k ≠ "Results1D" → k ≠ "MeshResults" →
           data_get data' k = data_get data k) →
     ∃ warns', render_validation data'
               = Some (issue_of <$> unresolved_refs data, warns')) ∧
  (render_validation Scenario.doc_E = Some ([], ["Results1D: 1 barras huérfanas"]) ∧
   orphans (coll Scenario.doc_E "Results1D") (coll Scenario.doc_E "CurveMembers")
   = {[ Some "B9" ]} ∧
   ¬ ∃ b, b ∈ coll Scenario.doc_E "CurveMembers" ∧
          get_Id b = get_Member Scenario.record_E).
Proof.
  intros Hwf r1d_o mr_o.
  split; [intros x; apply elem_of_orphans|].
  split; [intros x; apply elem_of_orphans|].
  split.
  { eexists. rewrite (render_validation_eq data Hwf). unfold warns_of. cbv zeta.
    reflexivity. }
  split.
  { intros data' Hwf' Hk. exists (warns_of data').
    rewrite (render_validation_eq data' Hwf').
    by rewrite (unresolved_refs_geometry data data' Hk). }
  split; [vm_compute; reflexivity|].
  split; [vm_compute; reflexivity|].
  intros (b & Hb & E). vm_compute in Hb.
  apply elem_of_cons in Hb as [-> | Hb]; [discriminate | by apply elem_of_nil in Hb].
Qed.

Lemma C9_orphan_detector_witness :
  well_formed Scenario.doc_E ∧
  ∀ x, x ∈ orphans (coll Scenario.doc_E "Results1D") (coll Scenario.doc_E "CurveMembers")
       ↔ is_orphan (coll Scenario.doc_E "Results1D")
                   (coll Scenario.doc_E "CurveMembers") x.
Proof.
  split; [apply scenario_E_well_formed|].
  destruct (C9_orphan_detector Scenario.doc_E scenario_E_well_formed) as [H _].
  exact H.
Defined.

(** C10. The surface reference of an opening is looked up
    unconditionally: on a well-formed document in which no surface has the
    empty string as its id, an opening whose [Surface] member is absent or
    empty always gets its error, whereas a support whose [Node] member is
    absent or empty gets none. *)
Theorem C10_opening_surface_unconditional (data : document) (o : entity) :
  well_formed data →
  (∀ s, s ∈ coll data "SurfaceMembers" → get_Id s ≠ Some "") →
  o ∈ coll data "SurfaceMemberOpenings" →
  get_Surface o = None ∨ get_Surface o = Some "" →
  (∃ issues warns,
     render_validation data = Some (issues, warns) ∧
     msg_opening_surface o ∈ issues) ∧
  (∀ issues, check_opening (id_set (coll data "SurfaceMembers")) issues o
             = issues ++ [msg_opening_surface o]) ∧
  (∀ node_ids issues sup,
     get_Node sup = None ∨ get_Node sup = Some "" →
     check_support node_ids issues sup = issues).
Proof.
  intros Hwf Hids Ho Hs.
  assert (default "" (get_Surface o) = "") as Hd by (by destruct Hs as [-> | ->]).
  assert (Some "" ∉ id_set (coll data "SurfaceMembers")) as Hn.
  { intros (s & Hin & E)%elem_of_id_set. by apply (Hids s). }
  split; [|split].
  - exists (issue_of <$> unresolved_refs data), (warns_of data).
    split; [by apply render_validation_eq|].
    apply list_elem_of_fmap. exists (Unresolved OpeningSurface o "").
    split; [done|]. apply elem_of_unresolved_refs. by repeat split.
  - intros issues. rewrite check_opening_eq, Hd. unfold pick.
    by rewrite decide_True.
  - intros node_ids issues sup Hsup. rewrite check_support_eq.
    assert (default "" (get_Node sup) = "") as -> by (by destruct Hsup as [-> | ->]).
    unfold pick_nonempty. rewrite decide_True by done. apply app_nil_r.
Qed.

Lemma C10_opening_surface_unconditional_witness :
  well_formed Scenario.doc_F ∧
  (∀ s, s ∈ coll Scenario.doc_F "SurfaceMembers" → get_Id s ≠ Some "") ∧
  Scenario.opening_F ∈ coll Scenario.doc_F "SurfaceMemberOpenings" ∧
  (get_Surface Scenario.opening_F = None ∨ get_Surface Scenario.opening_F = Some "") ∧
  ∃ issues warns,
    render_validation Scenario.doc_F = Some (issues, warns) ∧
    msg_opening_surface Scenario.opening_F ∈ issues.
Proof.
  assert (∀ s, s ∈ coll Scenario.doc_F "SurfaceMembers" → get_Id s ≠ Some "") as Hids.
  { intros s Hs. vm_compute in Hs.
    apply elem_of_cons in Hs as [-> | Hs]; [discriminate | by apply elem_of_nil in Hs]. }
  assert (Scenario.opening_F ∈ coll Scenario.doc_F "SurfaceMemberOpenings") as Ho.
  { vm_compute. apply elem_of_cons. left. reflexivity. }
  assert (get_Surface Scenario.opening_F = None
          ∨ get_Surface Scenario.opening_F = Some "") as Hs by (left; reflexivity).
  split; [apply scenario_F_well_formed|].
  split; [exact Hids|]. split; [exact Ho|]. split; [exact Hs|].
  destruct (C10_opening_surface_unconditional Scenario.doc_F Scenario.opening_F
              scenario_F_well_formed Hids Ho Hs) as [H _].
  exact H.
Defined.

(* ===================================================================== *)
(** ** The id to name map *)
(* ===================================================================== *)

Lemma id_name_map_snoc (items : list entity) (it : entity) :
  id_name_map (items ++ [it])
  = <[default "" (get_Id it) := display_name it]> (id_name_map items).
Proof. unfold id_name_map. by rewrite foldl_snoc. Qed.

Lemma id_name_map_last (items : list entity) (k : string) :
  id_name_map items !! k
  = display_name <$> list.last (filter (λ it, default "" (get_Id it) = k) items).
Proof.
  induction items as [|it items IH] using rev_ind; [done|].
  rewrite id_name_map_snoc, list.filter_app, filter_cons, filter_nil.
  destruct (decide (default "" (get_Id it) = k)) as [<- | Hne].
  - by rewrite lookup_insert_eq, last_snoc.
  - by rewrite lookup_insert_ne, app_nil_r.
Qed.

(** X1. Looking an id up in [id_name_map] gives the label of the last
    item filed under that id (an item without [Id] is filed under the empty
    string): its name, else its id, else [?]; duplicates overwrite. *)
Theorem id_name_map_lookup (items : list entity) (k : string) :
  id_name_map items !! k
  = display_name <$> list.last (filter (λ it, default "" (get_Id it) = k) items) ∧
  (∀ it name, get_Name it = Some name → display_name it = name) ∧
  (∀ it id, get_Name it = None → get_Id it = Some id → display_name it = id) ∧
  (∀ it, get_Name it = None → get_Id it = None → display_name it = "?").
Proof.
  split; [apply id_name_map_last|]. unfold display_name.
  split; [by intros it name ->|].
  split; [by intros it id -> ->|].
  by intros it -> ->.
Qed.

Lemma id_name_map_is_some (items : list entity) (k : string) :
  is_Some (id_name_map items !! k)
  ↔ ∃ it, it ∈ items ∧ default "" (get_Id it) = k.
Proof.
  rewrite id_name_map_last.
  destruct (filter (λ it, default "" (get_Id it) = k) items) as [|x l] eqn:E
    using rev_ind.
  - split; [by intros [? ?]|]. intros (it & Hin & Hk).
    assert (it ∈ filter (λ it, default "" (get_Id it) = k) items) as Hf
      by (by apply list_elem_of_filter).
    rewrite E in Hf. by apply elem_of_nil in Hf.
  - clear IHl. rewrite last_snoc. split; [|by eauto].
    intros _. exists x.
    assert (x ∈ filter (λ it, default "" (get_Id it) = k) items) as Hf
      by (rewrite E; apply elem_of_app; right; apply elem_of_cons; by left).
    apply list_elem_of_filter in Hf as [? ?]. done.
Qed.

(** X2. Querying [id_name_map] hits exactly the ids that occur in the
    collection it was built from, and misses every other id: every item is
    found under its own id, and an id that no item has gives nothing. *)
Theorem id_name_map_hit_miss (items : list entity) :
  (∀ k, is_Some (id_name_map items !! k)
        ↔ ∃ it, it ∈ items ∧ default "" (get_Id it) = k) ∧
  (∀ it, it ∈ items → is_Some (id_name_map items !! default "" (get_Id it))) ∧
  (∀ k, (∀ it, it ∈ items → default "" (get_Id it) ≠ k) →
        id_name_map items !! k = None).
Proof.
  split; [apply id_name_map_is_some|]. split.
  - intros it Hin. apply id_name_map_is_some. by exists it.
  - intros k Hk. apply eq_None_not_Some. rewrite id_name_map_is_some.
    intros (it & Hin & E). by apply (Hk it).
Qed.

Lemma filter_unique {A B : Type} `{EqDecision B} (f : A → B) (l : list A) (x : A) :
  NoDup (f <$> l) → x ∈ l → filter (λ y, f y = f x) l = [x].
Proof.
  induction l as [|a l IH]; intros Hnd Hx; [by apply elem_of_nil in Hx|].
  rewrite fmap_cons in Hnd. apply list.NoDup_cons in Hnd as [Ha Hnd].
  rewrite filter_cons. apply elem_of_cons in Hx as [<- | Hx].
  - rewrite decide_True by done. f_equal.
    destruct (filter (λ y, f y = f x) l) as [|b l'] eqn:E; [done|]. exfalso.
    assert (b ∈ filter (λ y, f y = f x) l) as Hb
      by (rewrite E; apply elem_of_cons; by left).
    apply list_elem_of_filter in Hb as [Hb1 Hb2]. apply Ha.
    rewrite <- Hb1. by apply list_elem_of_fmap_2.
  - rewrite decide_False; [by apply IH|].
    intros E. apply Ha. rewrite E. by apply list_elem_of_fmap_2.
Qed.

(** X3. When the ids of a collection are pairwise distinct, every item
    with an id and a name is found under its id with its name. *)
Theorem id_name_map_unique (items : list entity) (it : entity) (id name : string) :
  NoDup ((λ it, default "" (get_Id it)) <$> items) →
  it ∈ items → get_Id it = Some id → get_Name it = Some name →
  id_name_map items !! id = Some name.
Proof.
  intros Hnd Hin Hid Hname. rewrite id_name_map_last.
  assert (id = default "" (get_Id it)) as -> by (by rewrite Hid).
  rewrite (filter_unique (λ it, default "" (get_Id it)) items it Hnd Hin).
  simpl. unfold display_name. by rewrite Hname.
Qed.

Lemma id_name_map_unique_witness :
  NoDup ((λ it, default "" (get_Id it)) <$> [Scenario.surface_F; Scenario.bar_E]) ∧
  Scenario.surface_F ∈ [Scenario.surface_F; Scenario.bar_E] ∧
  id_name_map [Scenario.surface_F; Scenario.bar_E] !! "S1" = Some "Losa 1".
Proof.
  assert (NoDup ((λ it, default "" (get_Id it)) <$> [Scenario.surface_F; Scenario.bar_E]))
    as Hnd by (apply (bool_decide_unpack _); vm_compute; reflexivity).
  assert (Scenario.surface_F ∈ [Scenario.surface_F; Scenario.bar_E]) as Hin
    by (apply elem_of_cons; left; reflexivity).
  split; [exact Hnd|]. split; [exact Hin|].
  exact (id_name_map_unique _ Scenario.surface_F "S1" "Losa 1" Hnd Hin eq_refl eq_refl).
Defined.

(** X4. The bars table and the validator agree on a non-empty
    cross-section reference: the validator takes it for unresolved exactly
    when the table shows [N/A] for want of an entry, and a resolved one is
    shown with the label of a cross-section of that id.  A bar without the
    member is shown [N/A] unless some cross-section lacks an id or has the
    empty one. *)
Theorem section_label_agrees (sections : list entity) (b : entity) :
  (∀ cs, get_CrossSection b = Some cs → cs ≠ "" →
     (Some cs ∉ id_set sections ↔ id_name_map sections !! cs = None) ∧
     (Some cs ∉ id_set sections → section_label (id_name_map sections) b = "N/A") ∧
     (Some cs ∈ id_set sections →
      ∃ s, s ∈ sections ∧ get_Id s = Some cs ∧
           section_label (id_name_map sections) b = display_name s)) ∧
  (get_CrossSection b = None →
   (∀ s, s ∈ sections → get_Id s ≠ None ∧ get_Id s ≠ Some "") →
   section_label (id_name_map sections) b = "N/A").
Proof.
  split.
  - intros cs Hb Hne.
    assert (Some cs ∉ id_set sections ↔ id_name_map sections !! cs = None) as Hiff.
    { rewrite eq_None_not_Some, id_name_map_is_some, elem_of_id_set. split.
      - intros Hn (it & Hin & E). apply Hn. exists it. split; [done|].
        destruct (get_Id it); simpl in E; congruence.
      - intros Hn (g & Hin & E). apply Hn. exists g. split; [done|]. by rewrite E. }
    split; [done|]. unfold section_label. rewrite Hb. simpl. split.
    + intros Hn. apply Hiff in Hn. by rewrite Hn.
    + intros Hin. rewrite id_name_map_last.
      destruct (filter (λ it, default "" (get_Id it) = cs) sections) as [|x l] eqn:E
        using rev_ind.
      * exfalso. apply elem_of_id_set in Hin as (g & Hg & Eg).
        assert (g ∈ filter (λ it, default "" (get_Id it) = cs) sections) as Hf
          by (apply list_elem_of_filter; by rewrite Eg).
        rewrite E in Hf. by apply elem_of_nil in Hf.
      * clear IHl. rewrite last_snoc. simpl. exists x.
        assert (x ∈ filter (λ it, default "" (get_Id it) = cs) sections) as Hf
          by (rewrite E; apply elem_of_app; right; apply elem_of_cons; by left).
        apply list_elem_of_filter in Hf as [Hx1 Hx2]. split; [done|]. split; [|done].
        destruct (get_Id x); simpl in Hx1; congruence.
  - intros Hb Hids. unfold section_label. rewrite Hb. simpl.
    assert (id_name_map sections !! "" = None) as ->; [|done].
    rewrite eq_None_not_Some, id_name_map_is_some. intros (it & Hin & E).
    destruct (Hids it Hin) as [H1 H2]. destruct (get_Id it); simpl in E; congruence.
Qed.

(* ===================================================================== *)
(** ** The index and the summary, further *)
(* ===================================================================== *)

Lemma last_filter_elem {A : Type} (P : A → Prop) `{∀ x, Decision (P x)}
    (l : list A) (x : A) :
  list.last (filter P l) = Some x → x ∈ l ∧ P x.
Proof.
  destruct (filter P l) as [|y l'] eqn:E using rev_ind; [done|].
  rewrite last_snoc. intros [= ->].
  assert (x ∈ filter P l) as Hf
    by (rewrite E; apply elem_of_app; right; apply elem_of_cons; by left).
  apply list_elem_of_filter in Hf as [? ?]. done.
Qed.

(** X5. Indexing then querying: the pair of every record of the
    collection hits a record of the collection with that same pair, and a
    pair that no record carries misses. *)
Theorem result_index_round_trip (COMPS : list string) (results : list entity)
    (k : string * string) :
  (is_Some (result_index (classify_results COMPS results) !! k)
   ↔ ∃ r, r ∈ results ∧ key_of r = k) ∧
  (∀ r', result_index (classify_results COMPS results) !! k = Some r' →
         r' ∈ results ∧ key_of r' = k).
Proof.
  rewrite result_index_eq, index_of_lookup. split.
  - split.
    + intros [r' Hr']. exists r'. by apply last_filter_elem in Hr'.
    + intros (r & Hin & Hk).
      assert (r ∈ filter (λ r, key_of r = k) results) as Hf
        by (by apply list_elem_of_filter).
      destruct (filter (λ r, key_of r = k) results) as [|y l] using rev_ind;
        [by apply elem_of_nil in Hf|].
      rewrite last_snoc. eauto.
  - intros r' Hr'. by apply last_filter_elem in Hr'.
Qed.

Lemma index_of_size (COMPS : list string) (results : list entity) :
  (size (index_of COMPS results) ≤ length results)%nat.
Proof.
  induction results as [|r results IH] using rev_ind; [done|].
  rewrite index_of_snoc, length_app. simpl.
  destruct (index_of COMPS results !! key_of r) as [r0|] eqn:E.
  - rewrite map_size_insert_Some by eauto. lia.
  - rewrite map_size_insert_None by done. lia.
Qed.

(** X6. When the (owner id, load id) pairs of the records are pairwise
    distinct, the index returns every record under its own pair and has as
    many entries as there are records. *)
Theorem result_index_distinct_keys (COMPS : list string) (results : list entity) :
  NoDup (key_of <$> results) →
  (∀ r, r ∈ results →
        result_index (classify_results COMPS results) !! key_of r = Some r) ∧
  size (result_index (classify_results COMPS results)) = length results.
Proof.
  intros Hnd. rewrite result_index_eq. split.
  - intros r Hr. rewrite index_of_lookup.
    by rewrite (filter_unique key_of results r Hnd Hr).
  - induction results as [|r results IH] using rev_ind; [done|].
    rewrite fmap_app in Hnd. apply list.NoDup_app in Hnd as (Hnd & Hr & _).
    rewrite index_of_snoc, length_app. simpl.
    assert (index_of COMPS results !! key_of r = None) as Hnone.
    { rewrite index_of_lookup.
      destruct (list.last (filter (λ r0, key_of r0 = key_of r) results))
        as [r0|] eqn:E; [|done].
      exfalso. apply last_filter_elem in E as [Hin Hk].
      apply (Hr (key_of r)); [|apply elem_of_cons; by left].
      rewrite <- Hk. by apply list_elem_of_fmap_2. }
    rewrite map_size_insert_None by done. rewrite IH by done. lia.
Qed.

Lemma result_index_distinct_keys_witness :
  NoDup (key_of <$> [Scenario.record_C; Scenario.record_E]) ∧
  size (result_index (classify_results COMPS_1D [Scenario.record_C; Scenario.record_E]))
  = length [Scenario.record_C; Scenario.record_E].
Proof.
  assert (NoDup (key_of <$> [Scenario.record_C; Scenario.record_E])) as Hnd
    by (apply (bool_decide_unpack _); vm_compute; reflexivity).
  split; [exact Hnd|].
  destruct (result_index_distinct_keys COMPS_1D
              [Scenario.record_C; Scenario.record_E] Hnd) as [_ H].
  exact H.
Defined.

(** X7. The index never has more entries than the collection has
    records. *)
Theorem result_index_size (COMPS : list string) (results : list entity) :
  (size (result_index (classify_results COMPS results)) ≤ length results)%nat.
Proof. rewrite result_index_eq. apply index_of_size. Qed.

Lemma max_abs_nonneg (c : string) (rs : list entity) : (0 <= max_abs c rs)%Qc.
Proof. unfold max_abs. apply foldl_max2_ge. Qed.

Lemma summary_entry (COMPS : list string) (results : list entity)
    (bid : string) (i : info) :
  NoDup COMPS →
  owner_summary (classify_results COMPS results) !! bid = Some i →
  i = owner_info COMPS (records_of bid results).
Proof.
  intros Hnd Hi. rewrite owner_summary_eq, summary_of_lookup in Hi by done.
  destruct (records_of bid results); [done | by injection Hi].
Qed.

Lemma max_vals_shape (COMPS : list string) (results : list entity)
    (bid : string) (i : info) :
  NoDup COMPS →
  owner_summary (classify_results COMPS results) !! bid = Some i →
  (∀ c, is_Some (max_vals i !! c) ↔ c ∈ COMPS) ∧
  (∀ c m, max_vals i !! c = Some m → (0 <= m)%Qc).
Proof.
  intros Hnd Hi. rewrite (summary_entry COMPS results bid i Hnd Hi).
  unfold owner_info. cbn [max_vals]. split.
  - intros c. rewrite const_lookup.
    destruct (decide (c ∈ COMPS)) as [Hc | Hc].
    + split; eauto.
    + rewrite lookup_empty. split; [by intros [? ?] | done].
  - intros c m. rewrite const_lookup.
    destruct (decide (c ∈ COMPS)) as [Hc | Hc]; [|by rewrite lookup_empty].
    intros [= <-]. apply max_abs_nonneg.
Qed.

(** X8. Every [max_vals] dictionary of the summary has exactly the
    component names as keys, so the subscripts of the loop and of the
    table never miss, and every value in it is non-negative. *)
Theorem max_vals_keys (results : list entity) (bid : string) (i : info) :
  (owner_summary (classify_results COMPS_1D results) !! bid = Some i →
   (∀ c, is_Some (max_vals i !! c) ↔ c ∈ COMPS_1D) ∧
   (∀ c m, max_vals i !! c = Some m → (0 <= m)%Qc)) ∧
  (owner_summary (classify_results COMPS_MESH results) !! bid = Some i →
   (∀ c, is_Some (max_vals i !! c) ↔ c ∈ COMPS_MESH) ∧
   (∀ c m, max_vals i !! c = Some m → (0 <= m)%Qc)).
Proof.
  split; intros Hi.
  - by apply (max_vals_shape COMPS_1D results bid i COMPS_1D_nodup).
  - by apply (max_vals_shape COMPS_MESH results bid i COMPS_MESH_nodup).
Qed.

Lemma count_app {A : Type} (P : A → Prop) `{∀ x, Decision (P x)} (l k : list A) :
  Py.count P (l ++ k) = (Py.count P l + Py.count P k)%nat.
Proof. unfold Py.count. by rewrite list.filter_app, length_app. Qed.

Lemma max_abs_app_le (c : string) (rs more : list entity) :
  (max_abs c rs <= max_abs c (rs ++ more))%Qc.
Proof.
  unfold max_abs, abs_values. rewrite bind_app, foldl_app. apply foldl_max2_ge.
Qed.

Lemma summary_grows (COMPS : list string) (results more : list entity)
    (bid : string) (i : info) :
  NoDup COMPS →
  owner_summary (classify_results COMPS results) !! bid = Some i →
  ∃ i', owner_summary (classify_results COMPS (results ++ more)) !! bid = Some i' ∧
        (nonzero i ≤ nonzero i')%nat ∧ (zero i ≤ zero i')%nat ∧
        ∀ c m, max_vals i !! c = Some m →
               ∃ m', max_vals i' !! c = Some m' ∧ (m <= m')%Qc.
Proof.
  intros Hnd Hi. pose proof (summary_entry COMPS results bid i Hnd Hi) as ->.
  rewrite owner_summary_eq, summary_of_lookup in Hi by done.
  exists (owner_info COMPS (records_of bid (results ++ more))).
  assert (records_of bid (results ++ more)
          = records_of bid results ++ records_of bid more) as Happ
    by (unfold records_of; by rewrite list.filter_app).
  split.
  { rewrite owner_summary_eq, summary_of_lookup by done. rewrite Happ.
    destruct (records_of bid results); [done | done]. }
  rewrite Happ. unfold owner_info. cbn [nonzero zero max_vals].
  rewrite !count_app. split; [lia|]. split; [lia|].
  intros c m. rewrite !const_lookup.
  destruct (decide (c ∈ COMPS)); [|by rewrite lookup_empty].
  intros [= <-]. eexists. split; [done|]. apply max_abs_app_le.
Qed.

(** X9. Appending records to a collection never lowers what the summary
    holds for an owner: the owner keeps its entry, and its nonzero count,
    its zero count and each of its maxima stay or grow. *)
Theorem summary_monotone (results more : list entity) (bid : string) (i : info) :
  (owner_summary (classify_results COMPS_1D results) !! bid = Some i →
   ∃ i', owner_summary (classify_results COMPS_1D (results ++ more)) !! bid = Some i' ∧
         (nonzero i ≤ nonzero i')%nat ∧ (zero i ≤ zero i')%nat ∧
         ∀ c m, max_vals i !! c = Some m →
                ∃ m', max_vals i' !! c = Some m' ∧ (m <= m')%Qc) ∧
  (owner_summary (classify_results COMPS_MESH results) !! bid = Some i →
   ∃ i', owner_summary (classify_results COMPS_MESH (results ++ more)) !! bid = Some i' ∧
         (nonzero i ≤ nonzero i')%nat ∧ (zero i ≤ zero i')%nat ∧
         ∀ c m, max_vals i !! c = Some m →
                ∃ m', max_vals i' !! c = Some m' ∧ (m <= m')%Qc).
Proof.
  split; intros Hi.
  - by apply summary_grows; [apply COMPS_1D_nodup|].
  - by apply summary_grows; [apply COMPS_MESH_nodup|].
Qed.

(* ===================================================================== *)
(** ** Ratios, labels and rows *)
(* ===================================================================== *)

Lemma of_nat_lt (n m : nat) : (n < m)%nat → (Py.of_nat n < Py.of_nat m)%Qc.
Proof.
  intros H. unfold Py.of_nat, Qclt. simpl. rewrite !Qred_correct.
  rewrite <- Zlt_Qlt. lia.
Qed.

Lemma of_nat_inj (n m : nat) : Py.of_nat n = Py.of_nat m → n = m.
Proof.
  intros E. destruct (lt_eq_lt_dec n m) as [[H | H] | H]; [|done|].
  - apply of_nat_lt in H. rewrite E in H. by apply Qclt_not_eq in H.
  - apply of_nat_lt in H. rewrite E in H. by apply Qclt_not_eq in H.
Qed.

Lemma ratio_one_iff (n t : nat) :
  (0 < t)%nat → (Py.of_nat n / Py.of_nat t)%Qc = 1%Qc ↔ n = t.
Proof.
  intros Ht.
  assert (Py.of_nat t ≠ 0%Qc) as Hne.
  { intros E. apply of_nat_pos in Ht. rewrite E in Ht. by apply Qclt_not_eq in Ht. }
  split.
  - intros E. apply of_nat_inj.
    rewrite <- (test_field (Py.of_nat n) (Py.of_nat t)) by done.
    rewrite E. apply Qcmult_1_l.
  - intros ->. unfold Qcdiv. by apply Qcmult_inv_r.
Qed.

Lemma count_ext {A : Type} (P Q : A → Prop)
    `{∀ x, Decision (P x)} `{∀ x, Decision (Q x)} (l : list A) :
  (∀ x, x ∈ l → (P x ↔ Q x)) → Py.count P l = Py.count Q l.
Proof.
  unfold Py.count. induction l as [|a l IH]; intros HPQ; [done|].
  rewrite !filter_cons.
  assert (P a ↔ Q a) as Ha by (apply HPQ, elem_of_cons; by left).
  assert (length (filter P l) = length (filter Q l)) as IH'.
  { apply IH. intros x Hx. apply HPQ, elem_of_cons. by right. }
  destruct (decide (P a)) as [Hp | Hp], (decide (Q a)) as [Hq | Hq];
    simpl; try rewrite IH'; try done.
  - by apply Ha in Hp.
  - by apply Ha in Hq.
Qed.

Lemma count_pos_iff {A : Type} (P : A → Prop) `{∀ x, Decision (P x)} (l : list A) :
  (0 < Py.count P l)%nat ↔ ∃ x, x ∈ l ∧ P x.
Proof.
  split.
  - intros Hpos. unfold Py.count in Hpos.
    destruct (filter P l) as [|x l'] eqn:E; [simpl in Hpos; lia|].
    assert (x ∈ filter P l) as Hx by (rewrite E; apply elem_of_cons; by left).
    apply list_elem_of_filter in Hx as [? ?]. by exists x.
  - intros (x & Hx & HP).
    destruct (decide (Py.count P l = 0%nat)) as [E | E]; [|lia].
    exfalso. by apply (proj1 (count_zero_iff P l) E x).
Qed.

Lemma count_full_iff {A : Type} (P : A → Prop) `{∀ x, Decision (P x)} (l : list A) :
  Py.count P l = length l ↔ ∀ x, x ∈ l → P x.
Proof.
  unfold Py.count. induction l as [|a l IH].
  - split; [intros _ x Hx; by apply elem_of_nil in Hx | done].
  - rewrite filter_cons. pose proof (length_filter P l) as Hle.
    destruct (decide (P a)) as [Ha | Ha]; simpl.
    + split.
      * intros E x [-> | Hx]%elem_of_cons; [done|]. apply IH; [lia | done].
      * intros Hall. f_equal. apply IH. intros x Hx. apply Hall, elem_of_cons. by right.
    + split; [lia|]. intros Hall. exfalso. apply Ha, Hall, elem_of_cons. by left.
Qed.

Lemma nz_ratio_pos (COMPS : list string) (r : entity) :
  COMPS ≠ [] →
  (0 < nz_ratio COMPS r)%Qc ↔ ∃ c, c ∈ COMPS ∧ comp_nonzero r c = true.
Proof.
  intros Hne. rewrite <- (count_pos_iff (λ c, comp_nonzero r c = true)).
  destruct (nz_ratio_range COMPS r) as [H0 _]. split.
  - intros Hpos.
    destruct (decide (Py.count (λ c, comp_nonzero r c = true) COMPS = 0%nat))
      as [E | E]; [|lia].
    exfalso. unfold nz_ratio in Hpos. rewrite E in Hpos.
    assert ((Py.of_nat 0 / Py.of_nat (length COMPS))%Qc = 0%Qc) as E0.
    { apply ratio_zero_iff; [destruct COMPS; [done | simpl; lia] | done]. }
    rewrite E0 in Hpos. by apply Qclt_not_eq in Hpos.
  - intros Hpos. destruct (Qcle_lt_or_eq _ _ H0) as [? | E]; [done|].
    exfalso. symmetry in E. unfold nz_ratio in E.
    apply ratio_zero_iff in E; [lia | destruct COMPS; [done | simpl; lia]].
Qed.

Lemma nz_ratio_one (COMPS : list string) (r : entity) :
  COMPS ≠ [] →
  nz_ratio COMPS r = 1%Qc ↔ ∀ c, c ∈ COMPS → comp_nonzero r c = true.
Proof.
  intros Hne. unfold nz_ratio. rewrite ratio_one_iff.
  - apply count_full_iff.
  - destruct COMPS; [done | simpl; lia].
Qed.

Lemma classify_cases (COMPS : list string) (r : entity) :
  (classify (nz_ratio COMPS r) = Complete ↔ nz_ratio COMPS r = 1%Qc) ∧
  (classify (nz_ratio COMPS r) = Partial
   ↔ (0 < nz_ratio COMPS r)%Qc ∧ (nz_ratio COMPS r < 1)%Qc) ∧
  (classify (nz_ratio COMPS r) = Empty ↔ nz_ratio COMPS r = 0%Qc).
Proof.
  split; [|split; [|apply classify_empty]].
  - unfold classify. destruct (decide (nz_ratio COMPS r = 1%Qc)); [done|].
    destruct (decide (0 < nz_ratio COMPS r)%Qc); split; done.
  - unfold classify. destruct (nz_ratio_range COMPS r) as [H0 H1].
    destruct (decide (nz_ratio COMPS r = 1%Qc)) as [E | N].
    + split; [done|]. intros [_ Hlt]. rewrite E in Hlt. by apply Qclt_not_eq in Hlt.
    + destruct (decide (0 < nz_ratio COMPS r)%Qc) as [Hp | Hn].
      * split; [|done]. intros _. split; [done|].
        destruct (Qcle_lt_or_eq _ _ H1) as [? | E]; done.
      * split; [done|]. by intros [? _].
Qed.

(** X10. The label of the detail view follows the components: a record
    is Complete exactly when every component of its list is non-zero, and
    Partial exactly when some component is non-zero and some is not; its
    ratio always lies between 0 and 1. *)
Theorem classify_by_components (r : entity) :
  ((0 <= nz_ratio_1d r)%Qc ∧ (nz_ratio_1d r <= 1)%Qc ∧
   (classify (nz_ratio_1d r) = Complete
    ↔ ∀ c, c ∈ COMPS_1D → comp_nonzero r c = true) ∧
   (classify (nz_ratio_1d r) = Partial
    ↔ (∃ c, c ∈ COMPS_1D ∧ comp_nonzero r c = true) ∧
      (∃ c, c ∈ COMPS_1D ∧ comp_nonzero r c = false))) ∧
  ((0 <= nz_ratio_mesh r)%Qc ∧ (nz_ratio_mesh r <= 1)%Qc ∧
   (classify (nz_ratio_mesh r) = Complete
    ↔ ∀ c, c ∈ COMPS_MESH → comp_nonzero r c = true) ∧
   (classify (nz_ratio_mesh r) = Partial
    ↔ (∃ c, c ∈ COMPS_MESH ∧ comp_nonzero r c = true) ∧
      (∃ c, c ∈ COMPS_MESH ∧ comp_nonzero r c = false))).
Proof.
  assert (∀ COMPS, COMPS ≠ [] →
    (0 <= nz_ratio COMPS r)%Qc ∧ (nz_ratio COMPS r <= 1)%Qc ∧
    (classify (nz_ratio COMPS r) = Complete
     ↔ ∀ c, c ∈ COMPS → comp_nonzero r c = true) ∧
    (classify (nz_ratio COMPS r) = Partial
     ↔ (∃ c, c ∈ COMPS ∧ comp_nonzero r c = true) ∧
       (∃ c, c ∈ COMPS ∧ comp_nonzero r c = false))) as H.
  { intros COMPS Hne. destruct (nz_ratio_range COMPS r) as [H0 H1].
    destruct (classify_cases COMPS r) as (Hc & Hp & _).
    split; [done|]. split; [done|]. split.
    - rewrite Hc. by apply nz_ratio_one.
    - rewrite Hp, (nz_ratio_pos COMPS r Hne). split.
      + intros [Hsome Hlt]. split; [done|].
        destruct (decide (0 < Py.count (λ c, comp_nonzero r c = false) COMPS)%nat)
          as [Hz | Hz]; [by apply count_pos_iff in Hz|]. exfalso.
        assert (Py.count (λ c, comp_nonzero r c = false) COMPS = 0%nat) as Hz0 by lia.
        assert (nz_ratio COMPS r = 1%Qc) as E.
        { apply nz_ratio_one; [done|]. intros c Hc'.
          apply not_false_iff_true.
          by apply (proj1 (count_zero_iff (λ c, comp_nonzero r c = false) COMPS) Hz0). }
        rewrite E in Hlt. by apply Qclt_not_eq in Hlt.
      + intros [Hsome (c & Hc' & Hz)]. split; [done|].
        destruct (Qcle_lt_or_eq _ _ H1) as [? | E]; [done|]. exfalso.
        pose proof (proj1 (nz_ratio_one COMPS r Hne) E c Hc') as Ht.
        rewrite Ht in Hz. done. }
  split; apply H; done.
Qed.

(** X11. The three counts of a collection count the records by the label
    the detail view gives them: complete counts the records labelled
    Complete, partial those labelled Partial, empty those labelled Empty. *)
Theorem counts_by_label (results : list entity) :
  let c1 := classify_results COMPS_1D results in
  let cm := classify_results COMPS_MESH results in
  (n_full c1 = Py.count (λ r, classify (nz_ratio_1d r) = Complete) results ∧
   n_partial c1 = Py.count (λ r, classify (nz_ratio_1d r) = Partial) results ∧
   n_empty c1 = Py.count (λ r, classify (nz_ratio_1d r) = Empty) results) ∧
  (n_full cm = Py.count (λ r, classify (nz_ratio_mesh r) = Complete) results ∧
   n_partial cm = Py.count (λ r, classify (nz_ratio_mesh r) = Partial) results ∧
   n_empty cm = Py.count (λ r, classify (nz_ratio_mesh r) = Empty) results).
Proof.
  cbv zeta. rewrite !classify_results_fields. cbn [n_full n_partial n_empty].
  split; (split; [|split]); apply count_ext; intros r _; symmetry;
    apply classify_cases.
Qed.

Lemma estado_spec (COMPS : list string) (results : list entity)
    (bid : string) (i : info) :
  NoDup COMPS → COMPS ≠ [] →
  owner_summary (classify_results COMPS results) !! bid = Some i →
  (estado i = "✅"
   ↔ ∃ r, r ∈ results ∧ owner r = bid ∧
          ∃ c, c ∈ COMPS ∧ comp_nonzero r c = true).
Proof.
  intros Hnd Hne Hi. destruct (owner_counts COMPS results bid i Hnd Hi) as (Hnz & _ & _).
  unfold estado. rewrite Hnz.
  destruct (decide (0 < Py.count (λ r, (0 < nz_ratio COMPS r)%Qc)
                           (records_of bid results))%nat) as [Hpos | Hpos].
  - split; [|done]. intros _. apply count_pos_iff in Hpos as (r & Hr & Hratio).
    apply list_elem_of_filter in Hr as [Ho Hr]. exists r.
    split; [done|]. split; [done|]. by apply nz_ratio_pos.
  - split; [intros E; vm_compute in E; discriminate|].
    intros (r & Hr & Ho & Hc). exfalso. apply Hpos, count_pos_iff. exists r. split.
    + by apply list_elem_of_filter.
    + by apply nz_ratio_pos.
Qed.

(** X12. A row of the summary table is marked as having values exactly
    when some record of its owner has a non-zero component. *)
Theorem estado_of_owner (results : list entity) (bid : string) (i : info) :
  (owner_summary (classify_results COMPS_1D results) !! bid = Some i →
   (estado i = "✅"
    ↔ ∃ r, r ∈ results ∧ owner r = bid ∧
           ∃ c, c ∈ COMPS_1D ∧ comp_nonzero r c = true)) ∧
  (owner_summary (classify_results COMPS_MESH results) !! bid = Some i →
   (estado i = "✅"
    ↔ ∃ r, r ∈ results ∧ owner r = bid ∧
           ∃ c, c ∈ COMPS_MESH ∧ comp_nonzero r c = true)).
Proof.
  split; intros Hi.
  - by apply estado_spec; [apply COMPS_1D_nodup | |].
  - by apply estado_spec; [apply COMPS_MESH_nodup | |].
Qed.

(* ===================================================================== *)
(** ** Detail views *)
(* ===================================================================== *)

Lemma detail_comps_fmap (r : entity) :
  detail_comps r
  = (λ p : string * string, (p.1, get_seq r p.2))
      <$> [("N (kN)", "aN"); ("Vy (kN)", "aVy"); ("Vz (kN)", "aVz");
           ("Mx (kNm)", "aMx"); ("My (kNm)", "aMy"); ("Mz (kNm)", "aMz")].
Proof. reflexivity. Qed.

Lemma count_fmap {A B : Type} (f : A → B) (P : B → Prop) `{∀ y, Decision (P y)}
    (l : list A) :
  Py.count P (f <$> l) = Py.count (λ x, P (f x)) l.
Proof.
  unfold Py.count. induction l as [|a l IH]; [done|].
  rewrite fmap_cons, !filter_cons. destruct (decide (P (f a))); simpl; by rewrite IH.
Qed.

Lemma nz_comps_length (r : entity) :
  length (nz_comps r) = Py.count (λ c, comp_nonzero r c = true) COMPS_1D.
Proof.
  unfold nz_comps. rewrite length_fmap.
  change (length (filter (λ nv : string * list Py.number, seq_nonzero nv.2 = true)
                         (detail_comps r)))
    with (Py.count (λ nv : string * list Py.number, seq_nonzero nv.2 = true)
                   (detail_comps r)).
  rewrite detail_comps_fmap, count_fmap.
  change COMPS_1D
    with (snd <$> [("N (kN)", "aN"); ("Vy (kN)", "aVy"); ("Vz (kN)", "aVz");
                   ("Mx (kNm)", "aMx"); ("My (kNm)", "aMy"); ("Mz (kNm)", "aMz")]).
  by rewrite (count_fmap snd (λ c, comp_nonzero r c = true)).
Qed.

Lemma defaults_sub (r : entity) (c : string) : c ∈ defaults r → c ∈ nz_comps r.
Proof.
  unfold defaults.
  destruct (filter (λ c, c ∈ nz_comps r) ["Vz (kN)"; "My (kNm)"]) as [|d l] eqn:E.
  - intros Hc. apply subseteq_take in Hc. done.
  - intros Hc. rewrite <- E in Hc. by apply list_elem_of_filter in Hc as [? _].
Qed.

Lemma defaults_length (r : entity) : (length (defaults r) ≤ 2)%nat.
Proof.
  unfold defaults.
  destruct (filter (λ c, c ∈ nz_comps r) ["Vz (kN)"; "My (kNm)"]) as [|d l] eqn:E.
  - rewrite length_take. lia.
  - rewrite <- E.
    pose proof (length_filter (λ c, c ∈ nz_comps r) ["Vz (kN)"; "My (kNm)"]) as H.
    simpl in H. exact H.
Qed.

Lemma defaults_nil (r : entity) : defaults r = [] ↔ nz_comps r = [].
Proof.
  unfold defaults.
  destruct (filter (λ c, c ∈ nz_comps r) ["Vz (kN)"; "My (kNm)"]) as [|d l] eqn:E.
  - destruct (nz_comps r) as [|a [|b l']]; simpl; split; done.
  - split; [done|]. intros Hn. exfalso.
    assert (d ∈ filter (λ c, c ∈ nz_comps r) ["Vz (kN)"; "My (kNm)"]) as Hd
      by (rewrite E; apply elem_of_cons; by left).
    apply list_elem_of_filter in Hd as [Hd _]. rewrite Hn in Hd.
    by apply elem_of_nil in Hd.
Qed.

(** X13. In the detail view of a 1D record the non-zero components are
    as many as the ratio says (ratio = their number over 6), and the
    components preselected for the chart are always non-zero ones, at most
    two, and none exactly when the record is Empty. *)
Theorem detail_defaults (r : entity) :
  nz_ratio_1d r = (Py.of_nat (length (nz_comps r)) / Py.of_nat 6)%Qc ∧
  (∀ c, c ∈ defaults r → c ∈ nz_comps r) ∧
  (length (defaults r) ≤ 2)%nat ∧
  (defaults r = [] ↔ classify (nz_ratio_1d r) = Empty).
Proof.
  split; [by rewrite nz_comps_length|].
  split; [apply defaults_sub|]. split; [apply defaults_length|].
  rewrite defaults_nil. unfold nz_ratio_1d. rewrite classify_empty.
  unfold nz_ratio. rewrite ratio_zero_iff by (simpl; lia).
  rewrite <- nz_comps_length. split.
  - by intros ->.
  - apply nil_length_inv.
Qed.

Lemma elem_of_mesh_comps (r : entity) (c : string) (v : list Py.number) :
  (c, v) ∈ mesh_comps r ↔ c ∈ COMPS_MESH ∧ v = get_seq r c ∧ v ≠ [].
Proof.
  unfold mesh_comps. rewrite list_elem_of_omap. split.
  - intros (c0 & Hc0 & E). destruct (get_seq r c0) as [|x l] eqn:Eg; [done|].
    injection E as <- <-. by rewrite Eg.
  - intros (Hc & -> & Hne). exists c. split; [done|].
    by destruct (get_seq r c).
Qed.

Lemma mesh_comps_keys (r : entity) :
  (mesh_comps r).*1 = filter (λ c, get_seq r c ≠ []) COMPS_MESH.
Proof.
  unfold mesh_comps. induction COMPS_MESH as [|c l IH]; [done|].
  rewrite filter_cons. cbn [omap list_omap].
  destruct (get_seq r c) as [|x v] eqn:E.
  - rewrite decide_False by (intros H; by apply H). exact IH.
  - rewrite decide_True by done. rewrite fmap_cons. cbn [fst]. f_equal. exact IH.
Qed.

Lemma mesh_comps_nodup (r : entity) : NoDup (mesh_comps r).*1.
Proof. rewrite mesh_comps_keys. apply list.NoDup_filter, COMPS_MESH_nodup. Qed.

Lemma selected_vals_eq (r : entity) (c : string) :
  c ∈ (mesh_comps r).*1 → selected_vals r c = get_seq r c ∧ get_seq r c ≠ [].
Proof.
  intros Hc. apply list_elem_of_fmap in Hc as ([c' v] & -> & Hin). cbn [fst].
  pose proof Hin as Hin'. apply elem_of_mesh_comps in Hin' as (_ & -> & Hne).
  split; [|done]. unfold selected_vals.
  apply (elem_of_list_to_map_1 (M := gmap string)) in Hin; [|apply mesh_comps_nodup].
  by rewrite Hin.
Qed.

Lemma comp_list_sub (r : entity) (c : string) :
  c ∈ comp_list r → c ∈ (mesh_comps r).*1.
Proof.
  unfold comp_list, mesh_nz_comps.
  destruct (filter (λ kv, seq_nonzero kv.2 = true) (mesh_comps r)) as [|kv l] eqn:E;
    [done|].
  rewrite <- E. intros ([c' v] & -> & Hin)%list_elem_of_fmap.
  apply list_elem_of_filter in Hin as [_ Hin]. by apply (list_elem_of_fmap_2 fst) in Hin.
Qed.

(** X14. In the detail view of a mesh record every component offered for
    selection is one of the eight component names and has a non-empty
    sequence, which is what the chart and its minimum and maximum are
    computed from; none is offered exactly when every sequence is absent
    or empty.  When some component is non-zero the offered ones are exactly
    the non-zero ones, otherwise exactly those with a non-empty sequence. *)
Theorem mesh_detail_selection (r : entity) :
  (∀ sel, sel ∈ comp_list r →
     sel ∈ COMPS_MESH ∧ selected_vals r sel = get_seq r sel ∧
     selected_vals r sel ≠ []) ∧
  (comp_list r = [] ↔ ∀ c, c ∈ COMPS_MESH → get_seq r c = []) ∧
  ((0 < nz_ratio_mesh r)%Qc →
   ∀ c, c ∈ comp_list r ↔ c ∈ COMPS_MESH ∧ comp_nonzero r c = true) ∧
  (nz_ratio_mesh r = 0%Qc →
   ∀ c, c ∈ comp_list r ↔ c ∈ COMPS_MESH ∧ get_seq r c ≠ []).
Proof.
  assert (∀ c, c ∈ (mesh_comps r).*1 ↔ c ∈ COMPS_MESH ∧ get_seq r c ≠ []) as Hkeys.
  { intros c. rewrite mesh_comps_keys, list_elem_of_filter. split; intros [? ?]; done. }
  assert (∀ c, c ∈ (mesh_nz_comps r).*1 ↔ c ∈ COMPS_MESH ∧ comp_nonzero r c = true)
    as Hnz.
  { intros c. unfold mesh_nz_comps. rewrite list_elem_of_fmap. split.
    - intros ([c' v] & -> & Hin). apply list_elem_of_filter in Hin as [Hv Hin].
      apply elem_of_mesh_comps in Hin as (Hc & -> & _). done.
    - intros [Hc Hv]. exists (c, get_seq r c). split; [done|].
      apply list_elem_of_filter. split; [done|]. apply elem_of_mesh_comps.
      split; [done|]. split; [done|]. intros E. unfold comp_nonzero in Hv.
      rewrite E in Hv. done. }
  split; [|split; [|split]].
  - intros sel Hsel. apply comp_list_sub in Hsel.
    destruct (selected_vals_eq r sel Hsel) as [E Hne].
    split; [by apply Hkeys in Hsel as [? _]|]. split; [done | by rewrite E].
  - split.
    + intros E c Hc. destruct (get_seq r c) as [|x v] eqn:Eg; [done|]. exfalso.
      assert (c ∈ (mesh_comps r).*1) as Hin by (apply Hkeys; by rewrite Eg).
      unfold comp_list in E. destruct (mesh_nz_comps r) as [|kv l]; [|done].
      rewrite E in Hin. by apply elem_of_nil in Hin.
    + intros Hall. unfold comp_list.
      assert ((mesh_comps r).*1 = []) as Hnil.
      { apply elem_of_nil_inv. intros c Hin.
        apply Hkeys in Hin as [Hc Hne]. by apply Hne, Hall. }
      destruct (mesh_nz_comps r) as [|kv l]; [done|]. exfalso.
      assert (kv.1 ∈ (kv :: l).*1) as Hin by (apply elem_of_cons; by left).
      apply Hnz in Hin as [Hc Hv]. unfold comp_nonzero in Hv.
      rewrite (Hall _ Hc) in Hv. done.
  - intros Hpos c. apply (nz_ratio_pos COMPS_MESH r) in Hpos as (c0 & Hc0 & Hv0); [|done].
    unfold comp_list. destruct (mesh_nz_comps r) as [|kv l].
    + exfalso. assert (c0 ∈ ([] : list (string * list Py.number)).*1) as Hin
        by (by apply Hnz).
      by apply elem_of_nil in Hin.
    + apply Hnz.
  - intros Hz c.
    assert (∀ c, c ∈ COMPS_MESH → comp_nonzero r c = false) as Hzero
      by (by apply (nz_ratio_zero COMPS_MESH r)).
    clear Hz.
    unfold comp_list. destruct (mesh_nz_comps r) as [|kv l]; [apply Hkeys|].
    exfalso. assert (kv.1 ∈ (kv :: l).*1) as Hin by (apply elem_of_cons; by left).
    apply Hnz in Hin as [Hc Hv]. rewrite (Hzero _ Hc) in Hv. done.
Qed.

(* ===================================================================== *)
(** ** The validation report, further *)
(* ===================================================================== *)

Lemma elem_of_empty_keys (data : document) (k : string) :
  k ∈ empty_keys data ↔ (k, VList []) ∈ data.
Proof.
  unfold empty_keys. rewrite list_elem_of_omap. split.
  - intros ([k' v] & Hin & E). cbn [fst snd] in E.
    destruct v as [[|e l]|]; try done. by injection E as ->.
  - intros Hin. by exists (k, VList []).
Qed.

(** X15. Every top-level key of the document that holds an empty list is
    reported, whatever its name, and no other key is; when there is one,
    the report ends with the warning that lists them. *)
Theorem empty_collections_reported (data : document) :
  well_formed data →
  ∃ issues warns,
    render_validation data = Some (issues, warns) ∧
    (∀ k, k ∈ empty_keys data ↔ (k, VList []) ∈ data) ∧
    ((∃ k, (k, VList []) ∈ data) →
     list.last warns
     = Some ("Entidades vacías: " +:+ Py.join ", " (empty_keys data))).
Proof.
  intros Hwf. exists (issue_of <$> unresolved_refs data), (warns_of data).
  split; [by apply render_validation_eq|].
  split; [apply elem_of_empty_keys|].
  intros (k & Hk). apply elem_of_empty_keys in Hk.
  unfold warns_of. cbv zeta. unfold warn_when at 5.
  rewrite decide_True.
  - rewrite !app_assoc. apply last_snoc.
  - intros E. rewrite E in Hk. by apply elem_of_nil in Hk.
Qed.

Lemma empty_collections_reported_witness :
  well_formed [("Macros", VList []); ("CurveMembers", VList [Scenario.bar_E])] ∧
  ∃ issues warns,
    render_validation [("Macros", VList []); ("CurveMembers", VList [Scenario.bar_E])]
    = Some (issues, warns) ∧
    list.last warns = Some "Entidades vacías: Macros".
Proof.
  assert (well_formed [("Macros", VList []); ("CurveMembers", VList [Scenario.bar_E])])
    as Hwf by (unfold well_formed; apply (bool_decide_unpack _); vm_compute; reflexivity).
  split; [exact Hwf|].
  destruct (empty_collections_reported _ Hwf) as (issues & warns & E & _ & Hlast).
  exists issues, warns. split; [exact E|].
  apply Hlast. exists "Macros". apply elem_of_cons. left. reflexivity.
Defined.

Lemma unresolved_refs_load_cases (data data' : document) :
  (∀ k, k ≠ "LoadCases" → data_get data' k = data_get data k) →
  unresolved_refs data' = unresolved_refs data.
Proof.
  intros H. unfold unresolved_refs.
  rewrite !(coll_agree data data') by (by apply H). done.
Qed.

(** X16. The load cases are read but never checked: two well-formed
    documents that differ in the [LoadCases] collection only get the same
    errors, and the same warnings too unless the change makes a collection
    empty or non-empty. *)
Theorem load_cases_never_checked (data data' : document) :
  well_formed data → well_formed data' →
  (∀ k, k ≠ "LoadCases" → data_get data' k = data_get data k) →
  ∃ issues warns warns',
    render_validation data = Some (issues, warns) ∧
    render_validation data' = Some (issues, warns') ∧
    (empty_keys data' = empty_keys data → warns' = warns).
Proof.
  intros Hwf Hwf' Hk.
  exists (issue_of <$> unresolved_refs data), (warns_of data), (warns_of data').
  split; [by apply render_validation_eq|]. split.
  - rewrite (render_validation_eq data' Hwf').
    by rewrite (unresolved_refs_load_cases data data' Hk).
  - intros E. unfold warns_of.
    rewrite !(coll_agree data data') by (by apply Hk). by rewrite E.
Qed.

Lemma load_cases_never_checked_witness :
  well_formed Scenario.doc_A ∧
  well_formed (("LoadCases", VList [Scenario.bar_E]) :: Scenario.doc_A) ∧
  ∃ issues warns warns',
    render_validation Scenario.doc_A = Some (issues, warns) ∧
    render_validation (("LoadCases", VList [Scenario.bar_E]) :: Scenario.doc_A)
    = Some (issues, warns').
Proof.
  assert (well_formed (("LoadCases", VList [Scenario.bar_E]) :: Scenario.doc_A))
    as Hwf' by (unfold well_formed; apply (bool_decide_unpack _); vm_compute; reflexivity).
  assert (∀ k, k ≠ "LoadCases" →
            data_get (("LoadCases", VList [Scenario.bar_E]) :: Scenario.doc_A) k
            = data_get Scenario.doc_A k) as Hk.
  { intros k Hne. unfold data_get. cbn [lookup_key]. by rewrite decide_False. }
  split; [apply scenario_A_well_formed|]. split; [exact Hwf'|].
  destruct (load_cases_never_checked Scenario.doc_A _ scenario_A_well_formed Hwf' Hk)
    as (issues & warns & warns' & E & E' & _).
  exists issues, warns, warns'. split; [exact E | exact E'].
Defined.

Lemma size_list_to_set_le (l : list (option string)) :
  (size (list_to_set l : gset (option string)) ≤ length l)%nat.
Proof.
  induction l as [|a l IH]; [by rewrite list_to_set_nil, size_empty|].
  rewrite list_to_set_cons. simpl.
  pose proof (size_union_alt ({[a]} : gset (option string)) (list_to_set l)) as Hu.
  pose proof (subseteq_size (list_to_set l ∖ {[a]} : gset (option string))
                (list_to_set l)) as Hd.
  rewrite size_singleton in Hu.
  assert (list_to_set l ∖ {[a]} ⊆ (list_to_set l : gset (option string))) as Hs
    by (intros x Hx; by apply elem_of_difference in Hx as [? _]).
  specialize (Hd Hs). lia.
Qed.

(** X17. The orphan detector counts distinct owner ids: the number it
    reports never exceeds the number of result records, it depends on the
    set of owner ids only, and repeating records does not change it. *)
Theorem orphans_distinct (results geometry : list entity) :
  (size (orphans results geometry) ≤ length results)%nat ∧
  (∀ results',
     (∀ x, x ∈ member_set results' ↔ x ∈ member_set results) →
     orphans results' geometry = orphans results geometry) ∧
  orphans (results ++ results) geometry = orphans results geometry.
Proof.
  split; [|split].
  - unfold orphans, member_set.
    pose proof (size_list_to_set_le (get_Member <$> results)) as H1.
    rewrite length_fmap in H1.
    pose proof (subseteq_size
                  (list_to_set (get_Member <$> results) ∖ id_set geometry
                     : gset (option string))
                  (list_to_set (get_Member <$> results))) as H2.
    assert (list_to_set (get_Member <$> results) ∖ id_set geometry
            ⊆ (list_to_set (get_Member <$> results) : gset (option string))) as Hs
      by (intros x Hx; by apply elem_of_difference in Hx as [? _]).
    specialize (H2 Hs). lia.
  - intros results' H. unfold orphans. f_equal. apply set_eq. exact H.
  - unfold orphans. f_equal. apply set_eq. intros x.
    rewrite !elem_of_member_set. split.
    + intros (r & [Hr | Hr]%elem_of_app & E); eauto.
    + intros (r & Hr & E). exists r. split; [|done]. apply elem_of_app. by left.
Qed.

(** X18. A result record without [Member] is filed by the classifier
    under the empty owner id and the empty-owner pair, and the orphan
    detector reports the missing id exactly when every geometry object has
    an id. *)
Theorem record_without_member (results geometry : list entity) (r : entity) :
  r ∈ results → get_Member r = None →
  is_Some (owner_summary (classify_results COMPS_1D results) !! "") ∧
  is_Some (owner_summary (classify_results COMPS_MESH results) !! "") ∧
  key_of r = ("", default "" (get_Load r)) ∧
  (None ∈ orphans results geometry ↔ ∀ g, g ∈ geometry → get_Id g ≠ None).
Proof.
  intros Hr Hm.
  assert (owner r = "") as Ho by (unfold owner; by rewrite Hm).
  split; [apply owner_present; [apply COMPS_1D_nodup | eauto]|].
  split; [apply owner_present; [apply COMPS_MESH_nodup | eauto]|].
  split; [unfold key_of; by rewrite Hm|].
  rewrite elem_of_orphans. unfold is_orphan. split.
  - by intros [_ H].
  - intros H. split; [eauto | done].
Qed.

Lemma record_without_member_witness :
  Scenario.bar_E ∈ [Scenario.bar_E] ∧ get_Member Scenario.bar_E = None ∧
  is_Some (owner_summary (classify_results COMPS_1D [Scenario.bar_E]) !! "").
Proof.
  assert (Scenario.bar_E ∈ [Scenario.bar_E]) as Hr
    by (apply elem_of_cons; left; reflexivity).
  split; [exact Hr|]. split; [reflexivity|].
  destruct (record_without_member [Scenario.bar_E] [] Scenario.bar_E Hr eq_refl)
    as [H _].
  exact H.
Defined.

(* ===================================================================== *)
(** ** The surfaces of the 3D model *)
(* ===================================================================== *)

Lemma node_map_snoc (nodes : list point) (n : point) :
  node_map (nodes ++ [n]) = <[pt_Id n := n]> (node_map nodes).
Proof. unfold node_map. by rewrite foldl_snoc. Qed.

Lemma node_map_lookup (nodes : list point) (k : option string) :
  node_map nodes !! k = list.last (filter (λ n, pt_Id n = k) nodes).
Proof.
  induction nodes as [|n nodes IH] using rev_ind; [done|].
  rewrite node_map_snoc, list.filter_app, filter_cons, filter_nil.
  destruct (decide (pt_Id n = k)) as [<- | Hne].
  - by rewrite lookup_insert_eq, last_snoc.
  - by rewrite lookup_insert_ne, app_nil_r.
Qed.

Lemma omap_length_le {A B : Type} (f : A → option B) (l : list A) :
  (length (omap f l) ≤ length l)%nat.
Proof.
  induction l as [|a l IH]; [done|].
  cbn [omap list_omap]. destruct (f a); simpl in *; lia.
Qed.

(** X19. The points of a surface are the nodes its ids resolve to in the
    node map, in the order of the ids: an id that no node has is dropped
    without notice, and an id that several nodes have resolves to the last
    of them. *)
Theorem resolved_points_spec (nodes : list point) (surf : surface) :
  (∀ p, p ∈ resolved_points (node_map nodes) surf
        ↔ ∃ nid, nid ∈ default [] (sf_Nodes surf) ∧
                 list.last (filter (λ n, pt_Id n = Some nid) nodes) = Some p) ∧
  (length (resolved_points (node_map nodes) surf)
   ≤ length (default [] (sf_Nodes surf)))%nat ∧
  (∀ p, p ∈ resolved_points (node_map nodes) surf → p ∈ nodes).
Proof.
  unfold resolved_points. split; [|split].
  - intros p. rewrite list_elem_of_omap. split.
    + intros (nid & Hin & E). exists nid. by rewrite <- node_map_lookup.
    + intros (nid & Hin & E). exists nid. by rewrite node_map_lookup.
  - apply omap_length_le.
  - intros p (nid & Hin & E)%list_elem_of_omap. rewrite node_map_lookup in E.
    by apply last_filter_elem in E as [? _].
Qed.

Lemma push_vertex_fold (pts : list point) (mx : mesh3d) :
  foldl push_vertex mx pts
  = Mesh3d (mx_x mx ++ (pt_X <$> pts)) (mx_y mx ++ (pt_Y <$> pts))
           (mx_z mx ++ (pt_Z <$> pts)) (mx_i mx) (mx_j mx) (mx_k mx).
Proof.
  revert mx. induction pts as [|p pts IH]; intros mx.
  - destruct mx. simpl. by rewrite !app_nil_r.
  - simpl. rewrite IH. unfold push_vertex, Py.append. simpl.
    by rewrite <- !app_assoc.
Qed.

Lemma push_triangle_fold (off : nat) (ts : list nat) (mx : mesh3d) :
  foldl (push_triangle off) mx ts
  = Mesh3d (mx_x mx) (mx_y mx) (mx_z mx)
           (mx_i mx ++ ((λ _, off) <$> ts))
           (mx_j mx ++ ((λ t, off + t + 1)%nat <$> ts))
           (mx_k mx ++ ((λ t, off + t + 2)%nat <$> ts)).
Proof.
  revert mx. induction ts as [|t ts IH]; intros mx.
  - destruct mx. simpl. by rewrite !app_nil_r.
  - simpl. rewrite IH. unfold push_triangle, Py.append. simpl.
    by rewrite <- !app_assoc.
Qed.

Lemma push_edge_fold (pts : list point) (ex : edges3d) :
  foldl push_edge ex pts
  = Edges3d (ex_x ex ++ ((λ p, Some (pt_X p)) <$> pts))
            (ex_y ex ++ ((λ p, Some (pt_Y p)) <$> pts))
            (ex_z ex ++ ((λ p, Some (pt_Z p)) <$> pts)).
Proof.
  revert ex. induction pts as [|p pts IH]; intros ex.
  - destruct ex. simpl. by rewrite !app_nil_r.
  - simpl. rewrite IH. unfold push_edge, Py.append. simpl.
    by rewrite <- !app_assoc.
Qed.

(** The lengths of the six lists of [mx] and of the three lists of [ex],
    and the bound on the corners. *)
Lemma add_surface_cases (nm : gmap (option string) point) (stype : Z)
    (mx : mesh3d) (ex : edges3d) (surf : surface) :
  let pts := resolved_points nm surf in
  let n := length pts in
  let off := length (mx_x mx) in
  (¬ (default 0%Z (sf_Type surf) = stype ∧ (3 ≤ n)%nat) ∧
   add_surface nm stype (mx, ex) surf = (mx, ex)) ∨
  ((default 0%Z (sf_Type surf) = stype ∧ (3 ≤ n)%nat) ∧
   ∃ p0 mx' ex',
     add_surface nm stype (mx, ex) surf = (mx', ex') ∧
     head pts = Some p0 ∧
     mx_x mx' = mx_x mx ++ (pt_X <$> pts) ∧
     mx_y mx' = mx_y mx ++ (pt_Y <$> pts) ∧
     mx_z mx' = mx_z mx ++ (pt_Z <$> pts) ∧
     mx_i mx' = mx_i mx ++ ((λ _, off) <$> seq 0 (n - 2)) ∧
     mx_j mx' = mx_j mx ++ ((λ t, off + t + 1)%nat <$> seq 0 (n - 2)) ∧
     mx_k mx' = mx_k mx ++ ((λ t, off + t + 2)%nat <$> seq 0 (n - 2)) ∧
     ex_x ex' = ex_x ex ++ ((λ p, Some (pt_X p)) <$> pts) ++ [Some (pt_X p0); None] ∧
     ex_y ex' = ex_y ex ++ ((λ p, Some (pt_Y p)) <$> pts) ++ [Some (pt_Y p0); None] ∧
     ex_z ex' = ex_z ex ++ ((λ p, Some (pt_Z p)) <$> pts) ++ [Some (pt_Z p0); None]).
Proof.
  cbv zeta. unfold add_surface.
  destruct (decide (default 0%Z (sf_Type surf) ≠ stype)) as [Ht | Ht].
  { left. split; [by intros [? _] | done]. }
  apply dec_stable in Ht.
  destruct (resolved_points nm surf) as [|p0 pts] eqn:E.
  { left. split; [intros [_ H]; simpl in H; lia | done]. }
  destruct (decide (length (p0 :: pts) < 3)%nat) as [Hl | Hl].
  { left. split; [intros [_ H]; lia | done]. }
  right. split; [split; [done | lia]|].
  eexists p0, _, _. split; [reflexivity|]. split; [done|].
  rewrite push_triangle_fold, push_vertex_fold, push_edge_fold.
  unfold close_outline. cbn [mx_x mx_y mx_z mx_i mx_j mx_k ex_x ex_y ex_z].
  rewrite <- !app_assoc. repeat split; reflexivity.
Qed.

Lemma Forall_lt_weaken (l : list nat) (a b : nat) :
  (a ≤ b)%nat → Forall (λ c, c < a)%nat l → Forall (λ c, c < b)%nat l.
Proof. intros Hab. apply Forall_impl. intros c Hc. lia. Qed.

Lemma add_surface_ok (nm : gmap (option string) point) (stype : Z)
    (st : mesh3d * edges3d) (surf : surface) :
  mesh_ok st → mesh_ok (add_surface nm stype st surf).
Proof.
  destruct st as [mx ex]. intros Hok.
  destruct (add_surface_cases nm stype mx ex surf)
    as [[_ ->] | [[Ht Hn] (p0 & mx' & ex' & -> & _ & Hx & Hy & Hz & Hi & Hj & Hk
                              & Hex & Hey & Hez)]]; [done|].
  destruct Hok as (Oy & Oz & Oj & Ok & Fi & Fj & Fk & Ey & Ez).
  unfold mesh_ok. cbn [fst snd] in *.
  rewrite Hx, Hy, Hz, Hi, Hj, Hk, Hex, Hey, Hez.
  rewrite !length_app, !length_fmap, !length_seq. simpl.
  repeat split; try lia.
  - apply Forall_app. split.
    + eapply Forall_lt_weaken; [|exact Fi]. lia.
    + apply Forall_fmap, list.Forall_forall. intros t _. simpl. lia.
  - apply Forall_app. split.
    + eapply Forall_lt_weaken; [|exact Fj]. lia.
    + apply Forall_fmap, list.Forall_forall. intros t Ht'%elem_of_seq. simpl. lia.
  - apply Forall_app. split.
    + eapply Forall_lt_weaken; [|exact Fk]. lia.
    + apply Forall_fmap, list.Forall_forall. intros t Ht'%elem_of_seq. simpl. lia.
Qed.

Lemma surface_mesh_ok (nm : gmap (option string) point) (stype : Z)
    (surfaces : list surface) :
  mesh_ok (surface_mesh nm stype surfaces).
Proof.
  unfold surface_mesh.
  assert (mesh_ok (Mesh3d [] [] [] [] [] [], Edges3d [] [] [])) as H0.
  { unfold mesh_ok. simpl. repeat split; constructor. }
  revert H0. generalize (Mesh3d [] [] [] [] [] [], Edges3d [] [] []).
  induction surfaces as [|s surfaces IH]; intros st Hok; [done|].
  simpl. apply IH. by apply add_surface_ok.
Qed.

(** X20. Whatever the surfaces and the node map, the mesh handed to the
    3D figure is consistent: the coordinate lists are parallel, the three
    corner lists are parallel, every triangle corner is the index of a
    vertex of the mesh, and the outline lists are parallel. *)
Theorem surface_mesh_consistent (nm : gmap (option string) point) (stype : Z)
    (surfaces : list surface) :
  let mx := (surface_mesh nm stype surfaces).1 in
  let ex := (surface_mesh nm stype surfaces).2 in
  (length (mx_y mx) = length (mx_x mx) ∧ length (mx_z mx) = length (mx_x mx)) ∧
  (length (mx_j mx) = length (mx_i mx) ∧ length (mx_k mx) = length (mx_i mx)) ∧
  (∀ c, c ∈ mx_i mx ∨ c ∈ mx_j mx ∨ c ∈ mx_k mx → (c < length (mx_x mx))%nat) ∧
  (length (ex_y ex) = length (ex_x ex) ∧ length (ex_z ex) = length (ex_x ex)).
Proof.
  cbv zeta.
  destruct (surface_mesh_ok nm stype surfaces)
    as (Oy & Oz & Oj & Ok & Fi & Fj & Fk & Ey & Ez).
  split; [done|]. split; [done|]. split; [|done].
  rewrite list.Forall_forall in Fi, Fj, Fk.
  intros c [Hc | [Hc | Hc]]; auto.
Qed.

Lemma surface_mesh_sizes_from (nm : gmap (option string) point) (stype : Z)
    (surfaces : list surface) (st : mesh3d * edges3d) :
  let out := foldl (add_surface nm stype) st surfaces in
  let sizes := (λ s, length (resolved_points nm s)) <$> drawn nm stype surfaces in
  length (mx_x out.1) = (length (mx_x st.1) + sum_list sizes)%nat ∧
  length (mx_i out.1)
  = (length (mx_i st.1) + sum_list ((λ n, n - 2)%nat <$> sizes))%nat ∧
  length (ex_x out.2)
  = (length (ex_x st.2) + sum_list ((λ n, n + 2)%nat <$> sizes))%nat.
Proof.
  cbv zeta. revert st. induction surfaces as [|s surfaces IH]; intros st.
  - simpl. repeat split; lia.
  - simpl. destruct (IH (add_surface nm stype st s)) as (I1 & I2 & I3).
    rewrite I1, I2, I3. clear IH I1 I2 I3.
    destruct st as [mx ex]. unfold drawn. rewrite filter_cons.
    destruct (add_surface_cases nm stype mx ex s)
      as [[Hn ->] | [Hy (p0 & mx' & ex' & -> & _ & Hx & _ & _ & Hi & _ & _
                            & Hex & _ & _)]].
    + rewrite decide_False by done. done.
    + rewrite decide_True by done. cbn [fst snd].
      rewrite Hx, Hi, Hex. rewrite !length_app, !length_fmap, !length_seq.
      rewrite !fmap_cons. simpl. repeat split; lia.
Qed.

(** X21. A surface of another type, or with fewer than three points
    resolved in the node map, adds nothing to the figure; every other
    surface, of n resolved points, adds n vertices, n - 2 triangles and
    n + 2 outline entries. *)
Theorem surface_mesh_sizes (nm : gmap (option string) point) (stype : Z)
    (surfaces : list surface) :
  let out := surface_mesh nm stype surfaces in
  let sizes := (λ s, length (resolved_points nm s)) <$> drawn nm stype surfaces in
  length (mx_x out.1) = sum_list sizes ∧
  length (mx_i out.1) = sum_list ((λ n, n - 2)%nat <$> sizes) ∧
  length (ex_x out.2) = sum_list ((λ n, n + 2)%nat <$> sizes) ∧
  (drawn nm stype surfaces = [] →
   out = (Mesh3d [] [] [] [] [] [], Edges3d [] [] [])).
Proof.
  cbv zeta.
  destruct (surface_mesh_sizes_from nm stype surfaces
              (Mesh3d [] [] [] [] [] [], Edges3d [] [] [])) as (H1 & H2 & H3).
  fold (surface_mesh nm stype surfaces) in H1, H2, H3. simpl in H1, H2, H3.
  split; [done|]. split; [done|]. split; [done|].
  intros Hd. rewrite Hd in H1, H2, H3. simpl in H1, H2, H3.
  pose proof (surface_mesh_ok nm stype surfaces)
    as (Oy & Oz & Oj & Ok & _ & _ & _ & Ey & Ez).
  destruct (surface_mesh nm stype surfaces) as [[x y z i j k] [a b c]].
  cbn [fst snd mx_x mx_y mx_z mx_i mx_j mx_k ex_x ex_y ex_z] in *.
  rewrite H1 in Oy, Oz. rewrite H2 in Oj, Ok. rewrite H3 in Ey, Ez.
  apply nil_length_inv in H1, H2, H3, Oy, Oz, Oj, Ok, Ey, Ez. by subst.
Qed.
